(** * Jsonformer: schema-constrained generation (extensions/jsonformer/script.py)

    A shallow embedding of the [Jsonformer] class, of the entry point
    [custom_generate_reply] and of [save_settings], followed by the
    properties of the engine.

    Conventions of the embedding.
    - Python [str] is [string]; a character is a code point below 256.
    - Python [float] is the kernel's binary64 [float], so [t * 1.3] is the
      very multiplication the interpreter performs.
    - The instance attributes that never change ([json_schema], [prompt],
      [temperature], [manual_prompt], [max_array_length]) form the record
      [Jsonformer]; the two that do ([progress], [indent]) live in [State].
    - The generation function, the process-wide flag [shared.stop_everything]
      and the builtins the script calls but does not define ([float], [str]
      on a float, [json.dumps]) are the fields of the class [Env].
    - A generator is a state transformer.  Every [yield] appends the snapshot
      to [yielded], lets the consumer run, and then performs the flag test of
      [__call__], the only consumer of these generators in the script.
    - The stream of a call of the generation function is a finite list of
      snapshots.  The recursive functions of the script recurse here on a
      measure of their own (the retry counters, the depth of the schema);
      [measure_is_enough] shows that the measure never runs out. *)

From Stdlib Require Import ZArith List String Ascii Bool Lia PeanoNat.
From Stdlib Require Import PrimFloat.
Import ListNotations.
Local Open Scope list_scope.
Local Open Scope string_scope.

Set Implicit Arguments.
Set Warnings "-register-all".  (* no [All] scheme is needed for [json] *)

(** ** Python strings *)

Module PyStr.

(** The double quote, the newline and the backslash, by code. *)
Definition dq : ascii := "034"%char.
Definition nl : ascii := "010"%char.
Definition bslash : ascii := "092"%char.

Definition chr (c : ascii) : string := String c EmptyString.

(** [' ' * n]; a negative count gives the empty string. *)
Fixpoint spaces (n : nat) : string :=
  match n with
  | O => EmptyString
  | S k => String " " (spaces k)
  end.

Definition repeat_space (n : Z) : string := spaces (Z.to_nat n).

(** [c in s] for a one-character [c]. *)
Fixpoint contains (c : ascii) (s : string) : bool :=
  match s with
  | EmptyString => false
  | String a t => Ascii.eqb a c || contains c t
  end.

(** [s[:n]] for [n >= 0]. *)
Fixpoint take (n : nat) (s : string) : string :=
  match n, s with
  | S k, String a t => String a (take k t)
  | _, _ => EmptyString
  end.

(** [s[-1]]; [None] stands for the IndexError of the empty string. *)
Fixpoint last_char (s : string) : option ascii :=
  match s with
  | EmptyString => None
  | String a EmptyString => Some a
  | String _ t => last_char t
  end.

Definition is_empty (s : string) : bool :=
  match s with EmptyString => true | _ => false end.

Fixpoint mem (c : ascii) (cs : list ascii) : bool :=
  match cs with
  | [] => false
  | a :: t => Ascii.eqb a c || mem c t
  end.

(** [s.rstrip(chars)]: the longest suffix made of [chars] is dropped. *)
Fixpoint rstrip (chars : list ascii) (s : string) : string :=
  match s with
  | EmptyString => EmptyString
  | String a t =>
      let t' := rstrip chars t in
      if is_empty t' && mem a chars then EmptyString else String a t'
  end.

(** [s.lower()] on the ASCII letters. *)
Definition lower_char (c : ascii) : ascii :=
  let n := nat_of_ascii c in
  if (65 <=? n)%nat && (n <=? 90)%nat then ascii_of_nat (n + 32) else c.

Fixpoint lower (s : string) : string :=
  match s with
  | EmptyString => EmptyString
  | String a t => String (lower_char a) (lower t)
  end.

(** [str.isspace] on one code point below 256: tab to carriage return, the
    four separators 28..31, the space, NEL and the no-break space. *)
Definition is_space (c : ascii) : bool :=
  let n := nat_of_ascii c in
  ((9 <=? n) && (n <=? 13) || (28 <=? n) && (n <=? 32)
   || (n =? 133) || (n =? 160))%nat.

End PyStr.

(** ** The fragment of [re] the script uses

    A backtracking matcher in continuation-passing style: alternatives are
    tried left to right and repetitions are greedy, which is the order in
    which [re] explores them, so the first success is the match [re]
    reports.  Groups are numbered as in the pattern; group 0 is the whole
    match. *)

Module Re.

Inductive regex : Type :=
| Eps                                         (* the empty pattern *)
| Lit (c : ascii)                             (* one literal character *)
| Dot                                         (* [.]: anything but a newline *)
| Space                                       (* [\s] *)
| Class (negated : bool) (chars : list ascii) (space : bool)
                                              (* a bracket expression *)
| Cat (r1 r2 : regex)
| Alt (r1 r2 : regex)
| Star (r : regex)                            (* greedy [*] *)
| Group (n : nat) (r : regex)                 (* a capturing group *)
| NotAfter (c : ascii).                       (* [(?<!c)] *)

Definition Plus (r : regex) : regex := Cat r (Star r).

Fixpoint word (s : string) : regex :=
  match s with
  | EmptyString => Eps
  | String a t => Cat (Lit a) (word t)
  end.

(** Captured groups, most recent binding first. *)
Definition captures : Type := list (nat * string).

Fixpoint group (n : nat) (cs : captures) : option string :=
  match cs with
  | [] => None
  | (m, s) :: t => if Nat.eqb m n then Some s else group n t
  end.

Definition in_class (negated : bool) (chars : list ascii) (space : bool)
  (a : ascii) : bool :=
  xorb negated (PyStr.mem a chars || (space && PyStr.is_space a)).

Definition one (p : ascii -> bool) (s : list ascii) (cs : captures)
  (k : option ascii -> list ascii -> captures -> option captures)
  : option captures :=
  match s with
  | a :: t => if p a then k (Some a) t cs else None
  | [] => None
  end.

(** [run r prev s cs k]: match [r] at the head of [s], the character before
    it being [prev], then continue with [k]. *)
Fixpoint run (r : regex) (prev : option ascii) (s : list ascii)
  (cs : captures)
  (k : option ascii -> list ascii -> captures -> option captures)
  {struct r} : option captures :=
  match r with
  | Eps => k prev s cs
  | Lit c => one (Ascii.eqb c) s cs k
  | Dot => one (fun a => negb (Ascii.eqb a PyStr.nl)) s cs k
  | Space => one PyStr.is_space s cs k
  | Class neg chars sp => one (in_class neg chars sp) s cs k
  | Cat r1 r2 => run r1 prev s cs (fun p' s' cs' => run r2 p' s' cs' k)
  | Alt r1 r2 =>
      match run r1 prev s cs k with
      | Some res => Some res
      | None => run r2 prev s cs k
      end
  | Star r1 =>
      (fix loop (fuel : nat) (prev : option ascii) (s : list ascii)
         (cs : captures) {struct fuel} : option captures :=
         match fuel with
         | O => k prev s cs
         | S fuel' =>
             match
               run r1 prev s cs
                 (fun p' s' cs' =>
                    if (List.length s' <? List.length s)%nat
                    then loop fuel' p' s' cs' else None)
             with
             | Some res => Some res
             | None => k prev s cs
             end
         end) (List.length s) prev s cs
  | Group n r1 =>
      run r1 prev s cs
        (fun p' s' cs' =>
           k p' s'
             ((n, string_of_list_ascii
                    (firstn (List.length s - List.length s') s)) :: cs'))
  | NotAfter c =>
      match prev with
      | Some a => if Ascii.eqb a c then None else k prev s cs
      | None => k prev s cs
      end
  end.

(** [re.match(pattern, s)]: anchored at the start of [s]. *)
Definition re_match (r : regex) (s : string) : option captures :=
  run (Group 0 r) None (list_ascii_of_string s) []
      (fun _ _ cs => Some cs).

(** [m.group(n)]; a group that took no part in the match reads as the empty
    string here (the script never asks for one). *)
Definition match_group (n : nat) (cs : captures) : string :=
  match group n cs with Some s => s | None => EmptyString end.

(** [re.search(pattern, s)] as a truth value: a match at some position. *)
Fixpoint search_from (r : regex) (prev : option ascii) (s : list ascii)
  : bool :=
  match run r prev s [] (fun _ _ cs => Some cs) with
  | Some _ => true
  | None =>
      match s with
      | [] => false
      | a :: t => search_from r (Some a) t
      end
  end.

Definition re_search (r : regex) (s : string) : bool :=
  search_from r None (list_ascii_of_string s).

End Re.

Import PyStr Re.

(** The five patterns of the script. *)

(** [double_quote_regex], two double quotes in a row (line 94). *)
Definition double_quote_regex : regex := Cat (Lit dq) (Lit dq).

(** The stopping pattern of [generate_number] (line 113): group 1 is one or
    more characters other than a newline, followed by a comma, a white
    space, a closing bracket or a closing brace. *)
Definition number_regex : regex :=
  Cat (Group 1 (Plus Dot)) (Class false [","; "]"; "}"]%char true).

(** The stopping pattern of [generate_boolean] (line 138): white space, then
    group 1, one of true, false, 0 and 1. *)
Definition boolean_regex : regex :=
  Cat (Star Space)
      (Group 1 (Alt (word "true")
               (Alt (word "false") (Class false ["0"; "1"]%char false)))).

(** The stopping pattern of [generate_string] (line 163): group 1 is any run
    of characters other than a newline, followed by a double quote that no
    backslash precedes. *)
Definition string_regex : regex :=
  Cat (Group 1 (Star Dot)) (Cat (NotAfter bslash) (Lit dq)).

(** The pattern of the emptiness probe (line 228): white space, then group
    1, two characters that are not white space with white space allowed
    between them. *)
Definition array_regex : regex :=
  Cat (Star Space)
      (Group 1 (Cat (Class true [] true)
               (Cat (Star Space) (Class true [] true)))).

(** ** JSON documents, exceptions, settings *)

(** What [json.loads] returns.  An object is a [dict]: an association list
    with distinct keys, in insertion order. *)
Inductive json : Type :=
| JNull
| JBool (b : bool)
| JInt (z : Z)
| JFloat (f : float)
| JStr (s : string)
| JArr (items : list json)
| JObj (fields : list (string * json)).

(** [d[k]] on a [dict]; [None] stands for the KeyError. *)
Fixpoint lookup (k : string) (fields : list (string * json)) : option json :=
  match fields with
  | [] => None
  | (k', v) :: rest => if String.eqb k' k then Some v else lookup k rest
  end.

(** [v == s] for a string literal [s]. *)
Definition is_str (s : string) (v : json) : bool :=
  match v with
  | JStr s' => String.eqb s' s
  | _ => false
  end.

(** Nesting depth, the measure of the recursion over a schema. *)
Fixpoint json_depth (j : json) : nat :=
  match j with
  | JArr items => S (fold_right (fun x acc => Nat.max (json_depth x) acc) O items)
  | JObj fields =>
      S (fold_right (fun p acc => Nat.max (json_depth (snd p)) acc) O fields)
  | _ => O
  end.

(** The [ValueError]s of the script, by the place that raises them; the
    message text is kept as data. *)
Inductive value_error : Type :=
| DoubledQuote                 (* line 97 *)
| NoMatch                      (* line 105 *)
| InvalidNumber                (* line 126 *)
| UnsupportedType (ty : json)  (* line 291 *)
| ExpectedObject (schema : json)         (* line 60 *)
| MissingType (schema : json)            (* line 63 *)
| MissingProperties (schema : json)      (* line 67 *)
| PropertiesNotObject (schema : json)    (* line 70 *)
| MissingItems (schema : json)           (* line 76 *)
| InvalidType (ty schema : json).        (* line 81 *)

Inductive exn : Type :=
| ValueError (what : value_error)
| KeyError (key : string)
| TypeError
| AttributeError
| IndexError
| UnboundLocalError.

(** [GenerationSettings] (line 33). *)
Record GenerationSettings : Type := {
  setting_temperature : float;
  setting_max_new_tokens : option Z
}.

(** The attributes [__init__] stores, the generation function apart (it is
    part of the environment). *)
Record Jsonformer : Type := {
  json_schema : json;
  prompt : string;
  temperature : float;
  manual_prompt : bool;
  max_array_length : Z
}.

(** [a or b] on an optional float: [None] and zero are false. *)
Definition float_or (a : option float) (b : float) : float :=
  match a with
  | Some x => if PrimFloat.eqb x 0%float then b else x
  | None => b
  end.

(** [a or b] on an optional string: [None] and the empty string are false. *)
Definition str_or (a : option string) (b : string) : string :=
  match a with
  | Some s => if is_empty s then b else s
  | None => b
  end.

(** The factor of the temperature escalation, the float nearest to 1.3. *)
Definition escalation : float := 0x1.4cccccccccccdp+0%float.

(** ** The environment

    [World] is everything outside the session: the model, the other threads,
    the flag.  A call of the generation function returns the snapshots of its
    stream, each with the world as it is when the snapshot is delivered, and
    the world as it is once the stream is exhausted.  Streams are finite. *)
Class Env : Type := {
  World : Type;
  generation_func :
    string -> GenerationSettings -> World -> list (string * World) * World;
  stop_everything : World -> bool;
  set_stop_everything : bool -> World -> World;
  (** what the rest of the process does while a generator is suspended *)
  consumer : string -> World -> World;
  (** the builtin [float] on a string; [None] stands for its ValueError *)
  float_of_str : string -> option float;
  (** the builtin [str] on a float *)
  str_of_float : float -> string;
  json_dumps : json -> string
}.

(** ** Generators as state transformers *)

Inductive outcome (A : Type) : Type :=
| Done (a : A)        (* ran to its end *)
| Raised (e : exn)    (* an exception left it *)
| Halted              (* the consumer stopped pulling: the break of line 312 *)
| OutOfFuel.          (* the recursion measure of the model ran out *)

Arguments Done {A} a.
Arguments Raised {A} e.
Arguments Halted {A}.
Arguments OutOfFuel {A}.

Definition M (S A : Type) : Type := S -> outcome A * S.

Definition ret {S A : Type} (a : A) : M S A := fun st => (Done a, st).

Definition bind {S A B : Type} (m : M S A) (f : A -> M S B) : M S B :=
  fun st =>
    match m st with
    | (Done a, st') => f a st'
    | (Raised e, st') => (Raised e, st')
    | (Halted, st') => (Halted, st')
    | (OutOfFuel, st') => (OutOfFuel, st')
    end.

Definition raise {S A : Type} (e : exn) : M S A := fun st => (Raised e, st).

Definition out_of_fuel {S A : Type} : M S A := fun st => (OutOfFuel, st).

(** [try: m  except ValueError: h] *)
Definition try_value_error {S A : Type} (m : M S A)
  (h : value_error -> M S A) : M S A :=
  fun st =>
    match m st with
    | (Raised (ValueError v), st') => h v st'
    | r => r
    end.

Declare Scope gen_scope.
Delimit Scope gen_scope with gen.
Notation "x <- m ;; k" := (bind m (fun x => k))
  (at level 61, m at next level, right associativity) : gen_scope.
Notation "m ;; k" := (bind m (fun _ => k))
  (at level 61, right associativity) : gen_scope.
Local Open Scope gen_scope.

(** What a [get_next_tokens] loop makes of a stream. *)
Inductive scan (W : Type) : Type :=
| Matched (text : string) (w : W)     (* line 101 *)
| Doubled (w : W)                     (* line 97 *)
| Exhausted (last : option string).   (* the loop ran to the end *)

Arguments Matched {W} text w.
Arguments Doubled {W} w.
Arguments Exhausted {W} last.

(** Lines 95 to 101: the loop over the snapshots.  [last] is the value of
    the loop variable [response], unbound before the first snapshot. *)
Fixpoint consume {W : Type} (stopping_regex : option regex)
  (regex_return_group : nat) (snaps : list (string * W))
  (last : option string) : scan W :=
  match snaps with
  | [] => Exhausted last
  | (response, w) :: rest =>
      if re_search double_quote_regex response then Doubled w
      else
        match stopping_regex with
        | Some r =>
            match re_match r response with
            | Some m => Matched (match_group regex_return_group m) w
            | None =>
                consume stopping_regex regex_return_group rest (Some response)
            end
        | None =>
            consume stopping_regex regex_return_group rest (Some response)
        end
  end.

(** The values the leaf generators return: [generate_number] a float or the
    empty string, [generate_boolean] a bool or the empty string. *)
Inductive number_value : Type :=
| Number (f : float)
| NoNumber.

Inductive boolean_value : Type :=
| Boolean (b : bool)
| NoBoolean.

(** How many calls a retry chain entered at [iterations] can make when it
    recurses while [iterations < bound]. *)
Definition retry_budget (bound iterations : Z) : nat :=
  S (Z.to_nat (bound - iterations)).

(** ** The session *)

(** The mutable part of a session.  [calls] and [yielded] are history
    variables: the calls made to the generation function (prompt and
    settings, oldest first) and the snapshots yielded so far. *)
Record State {E : Env} : Type := {
  progress : string;
  indent : Z;
  world : World;
  calls : list (string * GenerationSettings);
  yielded : list string
}.

Section Engine.

Context {E : Env}.
Variable self : Jsonformer.

Abbreviation Gen := (M State).

Definition with_world (w : World) (st : State) : State :=
  {| progress := progress st; indent := indent st; world := w;
     calls := calls st; yielded := yielded st |}.

Definition with_indent (i : Z) (st : State) : State :=
  {| progress := progress st; indent := i; world := world st;
     calls := calls st; yielded := yielded st |}.

Definition log_call (c : string * GenerationSettings) (st : State) : State :=
  {| progress := progress st; indent := indent st; world := world st;
     calls := (calls st ++ [c])%list; yielded := yielded st |}.

(** A read of [shared.stop_everything]. *)
Definition read_stop_everything : Gen bool :=
  fun st => (Done (stop_everything (world st)), st).

(** [get_prompt] (line 293). *)
Definition get_prompt (st : State) : string :=
  if manual_prompt self then
    prompt self ++ chr nl ++ progress st
  else
    prompt self ++ chr nl
    ++ "Output result in the following JSON schema format:" ++ chr nl
    ++ json_dumps (json_schema self) ++ chr nl
    ++ "Consider carefully when to populate arrays and when to leave them empty. Remember empty arrays are often appropriate based on the request."
    ++ chr nl ++ "Result: " ++ progress st.

(** [get_next_tokens] (line 83). *)
Definition get_next_tokens (generation_settings : GenerationSettings)
  (stopping_regex : option regex) (regex_return_group : nat)
  (prompt_override : option string) : Gen string :=
  fun st =>
    let prompt := str_or prompt_override (get_prompt st) in
    let '(snaps, w_end) :=
      generation_func prompt generation_settings (world st) in
    let st1 := log_call (prompt, generation_settings) st in
    match consume stopping_regex regex_return_group snaps None with
    | Doubled w => (Raised (ValueError DoubledQuote), with_world w st1)
    | Matched text w => (Done text, with_world w st1)
    | Exhausted last =>
        let st2 := with_world w_end st1 in
        if stop_everything w_end then (Done EmptyString, st2)
        else
          match stopping_regex, last with
          | Some _, _ => (Raised (ValueError NoMatch), st2)
          | None, Some response => (Done response, st2)
          | None, None => (Raised UnboundLocalError, st2)
          end
    end.

(** The settings of the three leaf generators (lines 109, 130 and 159). *)
Definition number_settings (temperature_arg : option float)
  : GenerationSettings :=
  {| setting_temperature := float_or temperature_arg (temperature self);
     setting_max_new_tokens := None |}.

Definition boolean_settings (temperature_arg : option float)
  : GenerationSettings :=
  {| setting_temperature := float_or temperature_arg (temperature self);
     setting_max_new_tokens := Some 6%Z |}.

Definition string_settings (temperature_arg : option float)
  : GenerationSettings :=
  {| setting_temperature := float_or temperature_arg (temperature self);
     setting_max_new_tokens := None |}.

(** One activation of [generate_number] (line 108); [rec] is the recursive
    call of line 127. *)
Definition generate_number_body
  (rec : option float -> Z -> Gen number_value)
  (temperature_arg : option float) (iterations : Z) : Gen number_value :=
  let settings := number_settings temperature_arg in
  response <- get_next_tokens settings (Some number_regex) 1 None ;;
  match float_of_str response with
  | Some f => ret (Number f)
  | None =>
      stop <- read_stop_everything ;;
      if stop then ret NoNumber
      else if (iterations >? 3)%Z then raise (ValueError InvalidNumber)
      else
        rec (Some (float_or temperature_arg (temperature self) * escalation)%float)
            (iterations + 1)%Z
  end.

Fixpoint generate_number_fuel (fuel : nat)
  : option float -> Z -> Gen number_value :=
  match fuel with
  | O => fun _ _ => out_of_fuel
  | S n => generate_number_body (generate_number_fuel n)
  end.

Definition generate_number (temperature_arg : option float) (iterations : Z)
  : Gen number_value :=
  generate_number_fuel (retry_budget 4 iterations) temperature_arg iterations.

(** One activation of [generate_boolean] (line 129).  The [try] block either
    returns a value or falls through to line 150, which [None] stands for. *)
Definition generate_boolean_body
  (rec : option float -> Z -> Gen boolean_value)
  (temperature_arg : option float) (iterations : Z) : Gen boolean_value :=
  let settings := boolean_settings temperature_arg in
  let again :=
    rec (Some (float_or temperature_arg (temperature self) * escalation)%float)
        (iterations + 1)%Z in
  returned <-
    try_value_error
      (response <- get_next_tokens settings (Some boolean_regex) 1 None ;;
       if String.eqb response "true" || String.eqb response "1"
       then ret (Some (Boolean true))
       else if String.eqb response "false" || String.eqb response "0"
       then ret (Some (Boolean false))
       else ret None)
      (fun _ =>
         stop <- read_stop_everything ;;
         if stop then ret (Some NoBoolean)
         else if (iterations <=? 3)%Z
         then (b <- again ;; ret (Some b))
         else ret (Some (Boolean false))) ;;
  match returned with
  | Some b => ret b
  | None => if (iterations <=? 3)%Z then again else ret (Boolean false)
  end.

Fixpoint generate_boolean_fuel (fuel : nat)
  : option float -> Z -> Gen boolean_value :=
  match fuel with
  | O => fun _ _ => out_of_fuel
  | S n => generate_boolean_body (generate_boolean_fuel n)
  end.

Definition generate_boolean (temperature_arg : option float) (iterations : Z)
  : Gen boolean_value :=
  generate_boolean_fuel (retry_budget 4 iterations) temperature_arg iterations.

(** One activation of [generate_string] (line 155). *)
Definition generate_string_body
  (rec : option float -> Z -> Gen string)
  (temperature_arg : option float) (iterations : Z) : Gen string :=
  let settings := string_settings temperature_arg in
  try_value_error
    (get_next_tokens settings (Some string_regex) 1 None)
    (fun v =>
       stop <- read_stop_everything ;;
       if stop then ret EmptyString
       else if (iterations <? 2)%Z
       then
         rec (Some (float_or temperature_arg (temperature self * escalation)%float))
             (iterations + 1)%Z
       else if (iterations <? 4)%Z then ret (chr dq)
       else raise (ValueError v)).

Fixpoint generate_string_fuel (fuel : nat)
  : option float -> Z -> Gen string :=
  match fuel with
  | O => fun _ _ => out_of_fuel
  | S n => generate_string_body (generate_string_fuel n)
  end.

Definition generate_string (temperature_arg : option float) (iterations : Z)
  : Gen string :=
  generate_string_fuel (retry_budget 2 iterations) temperature_arg iterations.

(** [str(x)] of what [generate_number] returned, and [str(x).lower()] of
    what [generate_boolean] returned. *)
Definition str_of_number (v : number_value) : string :=
  match v with
  | Number f => str_of_float f
  | NoNumber => EmptyString
  end.

Definition str_of_boolean (v : boolean_value) : string :=
  match v with
  | Boolean true => "True"
  | Boolean false => "False"
  | NoBoolean => EmptyString
  end.

(** [add_to_progress] (line 181): the append, the yield, and what follows the
    yield in [__call__]. *)
Definition add_to_progress (s : string) : Gen unit :=
  fun st =>
    let p := progress st ++ s in
    let w := consumer p (world st) in
    let st' :=
      {| progress := p; indent := indent st; world := w;
         calls := calls st; yielded := (yielded st ++ [p])%list |} in
    if stop_everything w then (Halted, st') else (Done tt, st').

Definition apply_indent : Gen unit :=
  fun st => add_to_progress (repeat_space (indent st)) st.

Definition increase_indent : Gen unit :=
  fun st => (Done tt, with_indent (indent st + 4)%Z st).

Definition decrease_indent : Gen unit :=
  fun st => (Done tt, with_indent (indent st - 4)%Z st).

Definition apply_newline : Gen unit := add_to_progress (chr nl).

Definition apply_key (key : string) : Gen unit :=
  apply_indent ;;
  add_to_progress (chr dq ++ key ++ chr dq ++ ": ").

(** The loop of [generate_object] (lines 208 to 212); [i] is the last index
    exactly when no property remains. *)
Fixpoint generate_object_loop (generate_value : json -> option string -> Gen unit)
  (properties : list (string * json)) : Gen unit :=
  match properties with
  | [] => ret tt
  | (key, schema) :: rest =>
      apply_newline ;;
      generate_value schema (Some key) ;;
      (match rest with
       | [] => ret tt
       | _ :: _ => add_to_progress ","
       end) ;;
      generate_object_loop generate_value rest
  end.

(** [generate_object] (line 201); [properties.items()] needs a dict. *)
Definition generate_object (generate_value : json -> option string -> Gen unit)
  (properties : json) : Gen unit :=
  add_to_progress "{" ;;
  match properties with
  | JObj [] => add_to_progress "}"
  | JObj props =>
      increase_indent ;;
      generate_object_loop generate_value props ;;
      apply_newline ;;
      decrease_indent ;;
      apply_indent ;;
      add_to_progress "}"
  | _ => raise AttributeError
  end.

(** The settings of the continuation probe (lines 254 to 257). *)
Definition continuation_settings : GenerationSettings :=
  {| setting_temperature := temperature self;
     setting_max_new_tokens := Some 3%Z |}.

(** The loop of [generate_array] (lines 244 to 266), [n] iterations left.
    The value is the number of elements the loop generated. *)
Fixpoint generate_array_loop (generate_value : json -> option string -> Gen unit)
  (item_schema : json) (n : nat) : Gen nat :=
  match n with
  | O => ret O
  | S n' =>
      override <- (fun st => (Done (rstrip [dq; "}"%char] (get_prompt st)), st)) ;;
      next_tokens <-
        get_next_tokens continuation_settings None 0 (Some override) ;;
      let will_gen_another_element := contains "," (take 3 next_tokens) in
      if negb will_gen_another_element then ret O
      else
        add_to_progress "," ;;
        apply_newline ;;
        apply_indent ;;
        generate_value item_schema None ;;
        more <- generate_array_loop generate_value item_schema n' ;;
        ret (S more)
  end.

(** The settings and the call of the emptiness probe (lines 223 to 230). *)
Definition probe_settings : GenerationSettings :=
  {| setting_temperature := temperature self;
     setting_max_new_tokens := Some 6%Z |}.

Definition emptiness_probe : Gen string :=
  get_next_tokens probe_settings (Some array_regex) 1 None.

(** [generate_array] (line 218).  The generator returns nothing; the model
    returns the number of elements it generated, so that the length of the
    array can be spoken of. *)
Definition generate_array (generate_value : json -> option string -> Gen unit)
  (item_schema : json) : Gen nat :=
  first_non_whitespace_characters <- emptiness_probe ;;
  match last_char first_non_whitespace_characters with
  | None => raise IndexError
  | Some c =>
      if Ascii.eqb c "]" then add_to_progress "[]" ;; ret O
      else
        add_to_progress "[" ;;
        apply_newline ;;
        increase_indent ;;
        apply_indent ;;
        generate_value item_schema None ;;
        more <-
          generate_array_loop generate_value item_schema
            (Z.to_nat (max_array_length self - 1)) ;;
        apply_newline ;;
        decrease_indent ;;
        apply_indent ;;
        add_to_progress "]" ;;
        ret (S more)
  end.

(** [generate_value] (line 272).  [fuel] bounds the nesting that is
    descended; [json_depth] of the schema plus one is enough.  [if key:]
    holds for a key that is neither [None] nor empty. *)
Fixpoint generate_value (fuel : nat) (schema : json) (key : option string)
  : Gen unit :=
  match fuel with
  | O => out_of_fuel
  | S n =>
      match schema with
      | JObj fields =>
          match lookup "type" fields with
          | None => raise (KeyError "type")
          | Some schema_type =>
              (match key with
               | Some k => if is_empty k then ret tt else apply_key k
               | None => ret tt
               end) ;;
              if is_str "number" schema_type then
                v <- generate_number None 0 ;;
                add_to_progress (str_of_number v)
              else if is_str "boolean" schema_type then
                v <- generate_boolean None 0 ;;
                add_to_progress (lower (str_of_boolean v))
              else if is_str "string" schema_type then
                add_to_progress (chr dq) ;;
                s <- generate_string None 0 ;;
                add_to_progress s ;;
                add_to_progress (chr dq)
              else if is_str "array" schema_type then
                match lookup "items" fields with
                | None => raise (KeyError "items")
                | Some items =>
                    _ <- generate_array (generate_value n) items ;; ret tt
                end
              else if is_str "object" schema_type then
                match lookup "properties" fields with
                | None => raise (KeyError "properties")
                | Some properties =>
                    generate_object (generate_value n) properties
                end
              else raise (ValueError (UnsupportedType schema_type))
          end
      | _ => raise TypeError
      end
  end.

(** The state [__call__] starts from (lines 307 and 308). *)
Definition initial_state (w : World) : State :=
  {| progress := EmptyString; indent := 0; world := w;
     calls := []; yielded := [] |}.

(** [__call__] (line 306): the whole run, from the world it starts in. *)
Definition call (w : World) : outcome unit * State :=
  generate_value (S (json_depth (json_schema self))) (json_schema self) None
    (initial_state w).

End Engine.

(** [validate_schema] (line 56), with the same measure as [generate_value].
    Line 72 reads each property back through its key. *)
Fixpoint validate_properties (validate : json -> outcome unit)
  (properties remaining : list (string * json)) : outcome unit :=
  match remaining with
  | [] => Done tt
  | (key, _) :: rest =>
      match lookup key properties with
      | None => Raised (KeyError key)
      | Some value =>
          match validate value with
          | Done _ => validate_properties validate properties rest
          | r => r
          end
      end
  end.

Fixpoint validate_schema (fuel : nat) (schema : json) : outcome unit :=
  match fuel with
  | O => OutOfFuel
  | S n =>
      match schema with
      | JObj fields =>
          match lookup "type" fields with
          | None => Raised (ValueError (MissingType schema))
          | Some schema_type =>
              if is_str "object" schema_type then
                match lookup "properties" fields with
                | None => Raised (ValueError (MissingProperties schema))
                | Some (JObj properties) =>
                    validate_properties (validate_schema n) properties properties
                | Some _ => Raised (ValueError (PropertiesNotObject schema))
                end
              else if is_str "array" schema_type then
                match lookup "items" fields with
                | None => Raised (ValueError (MissingItems schema))
                | Some items => validate_schema n items
                end
              else if is_str "string" schema_type || is_str "number" schema_type
                      || is_str "boolean" schema_type
              then Done tt
              else Raised (ValueError (InvalidType schema_type schema))
          end
      | _ => Raised (ValueError (ExpectedObject schema))
      end
  end.

(** What [custom_generate_reply] (line 314) does with a request. *)
Inductive reply {E : Env} : Type :=
| NoModel                                  (* lines 319 to 322 *)
| Unconstrained (w : World)                (* line 332: the plain generation *)
| Constrained (r : outcome unit * State).  (* line 363: the session *)

(** [custom_generate_reply] (line 314).  [model_loaded] is the test of line
    319, [enabled] and [manual] are [params['enabled']] and
    [params['manual_prompt']], [schema] is [state['json_schema']] as
    [json.loads] reads it ([None] when the state holds [None]), [question]
    the prompt and [temp] is [state['temperature']]. *)
Definition custom_generate_reply {E : Env} (model_loaded enabled manual : bool)
  (schema : option json) (question : string) (temp : float) (w : World)
  : reply :=
  if negb model_loaded then NoModel
  else
    let w1 := set_stop_everything false w in
    match enabled, schema with
    | true, Some js =>
        Constrained
          (call {| json_schema := js; prompt := question; temperature := temp;
                   manual_prompt := manual; max_array_length := 10 |} w1)
    | _, _ => Unconstrained w1
    end.

(** The settings of the extension ([params], line 14). *)
Record Params : Type := {
  params_enabled : bool;
  params_json_schema : string;
  params_manual_prompt : bool
}.

(** [save_settings] (line 419).  [loads] is [json.loads], [None] standing
    for the error it raises on a text that is no JSON.  The function returns
    an update of the information box; the model keeps of it whether it
    reports a success, and returns the settings as the call leaves them.
    Whatever is raised inside the [try] is caught at line 430. *)
Definition save_settings (loads : string -> option json) (enable : bool)
  (schema : string) (manual_prompt_arg : bool) (params : Params)
  : Params * bool :=
  match loads schema with
  | None => (params, false)
  | Some js =>
      match validate_schema (S (json_depth js)) js with
      | Done _ =>
          ({| params_enabled := enable;
              params_json_schema := schema;
              params_manual_prompt := manual_prompt_arg |}, true)
      | _ => (params, false)
      end
  end.

(** ** Scripted environments

    Test doubles for the environment: a world that is a call counter and a
    flag, the builtins [float] and [str] on the unsigned decimal integers
    (all a scripted run feeds them), and oracles that answer by slot or by
    call number. *)

From Stdlib Require Import Uint63 SpecFloat FloatOps DecimalString.

Module Scripted.

Record world : Type := { clock : nat; flag : bool }.

Definition tick (w : world) : world :=
  {| clock := S (clock w); flag := flag w |}.

Definition stop (b : bool) (w : world) : world :=
  {| clock := clock w; flag := b |}.

Definition digit_value (c : ascii) : option Z :=
  let n := nat_of_ascii c in
  if (48 <=? n)%nat && (n <=? 57)%nat then Some (Z.of_nat (n - 48)) else None.

Fixpoint decimal_value (acc : Z) (s : string) : option Z :=
  match s with
  | EmptyString => Some acc
  | String c t =>
      match digit_value c with
      | Some d => decimal_value (10 * acc + d) t
      | None => None
      end
  end.

(** [float(s)] for [s] made of one to fifteen decimal digits, where the
    value is a float exactly.  Any other text is refused here; the scripted
    oracles emit digits, for which this is the builtin, or letters, which
    the builtin refuses too. *)
Definition float_of_digits (s : string) : option float :=
  if is_empty s || (15 <? String.length s)%nat then None
  else option_map (fun z => PrimFloat.of_uint63 (Uint63.of_Z z))
                  (decimal_value 0 s).

(** The integer a float is, when it is one. *)
Definition integer_of_float (f : float) : option Z :=
  match Prim2SF f with
  | S754_zero _ => Some 0%Z
  | S754_finite s m e =>
      let sign := if s then (-1)%Z else 1%Z in
      if (0 <=? e)%Z then Some (sign * Zpos m * 2 ^ e)%Z
      else if (Zpos m mod 2 ^ (- e) =? 0)%Z
           then Some (sign * (Zpos m / 2 ^ (- e)))%Z
           else None
  | _ => None
  end.

(** [str(f)] for a float that is a non-negative integer below ten to the
    sixteenth: the digits, a point and a zero.  Other floats are outside what
    the scripted runs produce and read as the empty string. *)
Definition str_of_integral (f : float) : string :=
  match integer_of_float f with
  | Some z =>
      if (0 <=? z)%Z && (z <? 10 ^ 16)%Z
      then NilZero.string_of_uint (N.to_uint (Z.to_N z)) ++ ".0"
      else EmptyString
  | None => EmptyString
  end.

(** [s.endswith(suffix)], used by the oracles that answer by slot. *)
Fixpoint starts_with (p s : list ascii) : bool :=
  match p, s with
  | [], _ => true
  | a :: p', b :: s' => Ascii.eqb a b && starts_with p' s'
  | _ :: _, [] => false
  end.

Definition ends_with (suffix s : string) : bool :=
  starts_with (rev (list_ascii_of_string suffix)) (rev (list_ascii_of_string s)).

(** The cumulative snapshots of a stream that spells [text], delivered in a
    world where nothing else happens. *)
Fixpoint spell (w : world) (sofar text : string) : list (string * world) :=
  match text with
  | EmptyString => []
  | String c t =>
      let s := sofar ++ chr c in (s, w) :: spell w s t
  end.

(** An environment around an oracle; the schema is never serialised because
    the scripted sessions run with [manual_prompt] set. *)
Definition env
  (oracle : string -> GenerationSettings -> world -> list (string * world) * world)
  : Env :=
  {| World := world;
     generation_func := oracle;
     stop_everything := flag;
     set_stop_everything := stop;
     consumer := fun _ w => w;
     float_of_str := float_of_digits;
     str_of_float := str_of_integral;
     json_dumps := fun _ => EmptyString |}.

(** The oracle of the end-to-end example: it completes the name slot with
    Ann and a closing quote, the age slot with 30 and a comma, and says
    nothing anywhere else. *)
Definition ann_oracle (prompt : string) (_ : GenerationSettings) (w : world)
  : list (string * world) * world :=
  let w' := tick w in
  if ends_with (chr dq ++ "name" ++ chr dq ++ ": " ++ chr dq) prompt
  then (spell w' EmptyString ("Ann" ++ chr dq ++ ","), w')
  else if ends_with (chr dq ++ "age" ++ chr dq ++ ": ") prompt
  then (spell w' EmptyString ("30," ++ chr nl), w')
  else ([], w').

Definition string_schema : json := JObj [("type", JStr "string")].
Definition number_schema : json := JObj [("type", JStr "number")].
Definition boolean_schema : json := JObj [("type", JStr "boolean")].

Definition person_schema : json :=
  JObj [("type", JStr "object");
        ("properties", JObj [("name", string_schema); ("age", number_schema)])].

Definition session (schema : json) (max_len : Z) : Jsonformer :=
  {| json_schema := schema; prompt := "Describe Ann.";
     temperature := 0.5%float; manual_prompt := true;
     max_array_length := max_len |}.

Definition start : world := {| clock := 0; flag := false |}.

(** An oracle that spells true whatever it is asked. *)
Definition true_oracle (_ : string) (_ : GenerationSettings) (w : world)
  : list (string * world) * world :=
  let w' := tick w in (spell w' EmptyString "true", w').

Definition array_schema (items : json) : json :=
  JObj [("type", JStr "array"); ("items", items)].

(** An oracle whose whole output is [text], in one snapshot. *)
Definition say_oracle (text : string) (_ : string) (_ : GenerationSettings)
  (w : world) : list (string * world) * world :=
  let w' := tick w in ([(text, w')], w').

(** The same environment with a flag that nobody ever sets. *)
Definition quiet_env
  (oracle : string -> GenerationSettings -> world -> list (string * world) * world)
  : Env :=
  {| World := world;
     generation_func := oracle;
     stop_everything := fun _ => false;
     set_stop_everything := fun _ w => w;
     consumer := fun _ w => w;
     float_of_str := float_of_digits;
     str_of_float := str_of_integral;
     json_dumps := fun _ => EmptyString |}.

(** An oracle that spells the letters abc and a comma whatever it is asked:
    no number, no boolean, and no closing quote. *)
Definition noise_oracle (_ : string) (_ : GenerationSettings) (w : world)
  : list (string * world) * world :=
  let w' := tick w in (spell w' EmptyString "abc,", w').

(** An oracle that answers its first [n] calls with noise and the later ones
    with [answer]. *)
Definition late_oracle (n : nat) (answer : string) (_ : string)
  (_ : GenerationSettings) (w : world) : list (string * world) * world :=
  let w' := tick w in
  if (clock w <? n)%nat then (spell w' EmptyString "abc,", w')
  else (spell w' EmptyString answer, w').

(** An oracle that spells true while somebody sets the flag: the flag is up
    from the first snapshot on. *)
Definition interrupted_oracle (_ : string) (_ : GenerationSettings) (w : world)
  : list (string * world) * world :=
  let w' := stop true (tick w) in (spell w' EmptyString "true", w').

(** An oracle cut short by the flag: one blank, and the flag is up when the
    stream ends. *)
Definition stopped_oracle (_ : string) (_ : GenerationSettings) (w : world)
  : list (string * world) * world :=
  let w' := stop true (tick w) in ([(" ", w')], w').

(** A schema that [validate_schema] refuses: the type of its second property
    is none of the five. *)
Definition tuple_schema : json :=
  JObj [("type", JStr "object");
        ("properties",
         JObj [("name", string_schema);
               ("age", JObj [("type", JStr "tuple")])])].

(** A [json.loads] that knows two texts: a number schema, and an empty
    list, which is JSON and no schema. *)
Definition number_text : string :=
  "{" ++ chr dq ++ "type" ++ chr dq ++ ": " ++ chr dq ++ "number" ++ chr dq
  ++ "}".

Definition loads (s : string) : option json :=
  if String.eqb s number_text then Some number_schema
  else if String.eqb s "[]" then Some (JArr [])
  else None.

End Scripted.

(** ** The vocabulary of the properties *)

(** [keeps m]: however [m] ends, the indentation is what it was. *)
Definition keeps {E : Env} {A : Type} (m : M State A) : Prop :=
  forall st r st', m st = (r, st') -> indent st' = indent st.

(** [shifts d m]: when [m] runs to its end, the indentation has moved by
    [d]. *)
Definition shifts {E : Env} {A : Type} (d : Z) (m : M State A) : Prop :=
  forall st a st', m st = (Done a, st') -> indent st' = (indent st + d)%Z.

(** [extends m]: however [m] ends, the buffer is what it was with
    something appended. *)
Definition extends {E : Env} {A : Type} (m : M State A) : Prop :=
  forall st, exists s, progress (snd (m st)) = progress st ++ s.

(** [fueled m]: the recursion measure of the model never runs out in [m]. *)
Definition fueled {E : Env} {A : Type} (m : M State A) : Prop :=
  forall st, fst (m st) <> OutOfFuel.

(** The temperatures of [n] successive attempts, the first made at [t]: each
    retry multiplies by the escalation factor, and line 110 (as lines 131
    and 160) reads a zero product as the session temperature. *)
Fixpoint escalations (base t : float) (n : nat) : list float :=
  match n with
  | O => []
  | S k => t :: escalations base (float_or (Some (t * escalation)%float) base) k
  end.

(** The calls of a retry chain: one prompt, one token limit, the
    temperatures in order. *)
Definition attempts (prompt : string) (limit : option Z) (ts : list float)
  : list (string * GenerationSettings) :=
  map (fun t => (prompt, {| setting_temperature := t;
                            setting_max_new_tokens := limit |})) ts.

(** [untouched st st' new]: between [st] and [st'] the session did nothing
    but make the calls [new]. *)
Definition untouched {E : Env} (st st' : State)
  (new : list (string * GenerationSettings)) : Prop :=
  progress st' = progress st
  /\ indent st' = indent st
  /\ yielded st' = yielded st
  /\ calls st' = (calls st ++ new)%list.

(** The two ways an acquisition with a stopping pattern fails (lines 97 and
    105). *)
Definition acquisition_error (e : exn) : Prop :=
  e = ValueError DoubledQuote \/ e = ValueError NoMatch.

(** The exceptions that come from what the oracle answers, as opposed to
    those that come from the shape of the schema. *)
Definition generation_error (e : exn) : Prop :=
  e = ValueError DoubledQuote
  \/ e = ValueError NoMatch
  \/ e = ValueError InvalidNumber
  \/ e = IndexError
  \/ e = UnboundLocalError.

(** The exceptions that come from the shape of the schema: a key that is
    missing (lines 273, 286 and 289), a schema that is no dict (line 273),
    properties that are no dict (line 203), a type that is none of the five
    (line 291). *)
Definition shape_error (e : exn) : Prop :=
  (exists k, e = KeyError k)
  \/ e = TypeError
  \/ e = AttributeError
  \/ (exists ty, e = ValueError (UnsupportedType ty)).

(** How a generator ended, the value it returned left out. *)
Inductive ending : Type :=
| Returned
| Threw (e : exn)
| Broke
| Starved.

Definition ending_of {A : Type} (r : outcome A) : ending :=
  match r with
  | Done _ => Returned
  | Raised e => Threw e
  | Halted => Broke
  | OutOfFuel => Starved
  end.

(** A rule relates the state a generator starts in, the way it ends and the
    state it leaves.  [obeys P m]: every run of [m] is in [P]. *)
Definition rule {E : Env} : Type := State -> ending -> State -> Prop.

Definition obeys {E : Env} {A : Type} (P : rule) (m : M State A) : Prop :=
  forall st r st', m st = (r, st') -> P st (ending_of r) st'.

(** [chained P]: [P] holds of doing nothing, and of a run that follows one
    that returned. *)
Record chained {E : Env} (P : rule) : Prop := {
  chained_refl : forall st, P st Returned st;
  chained_trans :
    forall st st1 v st', P st Returned st1 -> P st1 v st' -> P st v st'
}.

(** The two probes of [generate_array] with what is done to their answers
    before anything else: the subscript of line 231, and the prompt of line
    258 read from the buffer as it stands. *)
Definition probed_emptiness {E : Env} (self : Jsonformer) : M State ascii :=
  first_non_whitespace_characters <- emptiness_probe self ;;
  match last_char first_non_whitespace_characters with
  | None => raise IndexError
  | Some c => ret c
  end.

Definition probed_continuation {E : Env} (self : Jsonformer)
  : M State string :=
  override <- (fun st => (Done (rstrip [dq; "}"%char] (get_prompt self st)), st)) ;;
  get_next_tokens self (continuation_settings self) None 0 (Some override).

(** [grounded self P]: [P] is chained and holds of every step of the
    traversal that is no traversal itself. *)
Record grounded {E : Env} (self : Jsonformer) (P : rule) : Prop := {
  grounded_chained : chained P;
  grounded_add : forall s, obeys P (add_to_progress s);
  grounded_increase : obeys P increase_indent;
  grounded_decrease : obeys P decrease_indent;
  grounded_number : obeys P (generate_number self None 0);
  grounded_boolean : obeys P (generate_boolean self None 0);
  grounded_string : obeys P (generate_string self None 0);
  grounded_emptiness : obeys P (probed_emptiness self);
  grounded_continuation : obeys P (probed_continuation self)
}.

(** The rule of cancellation.  The break of [__call__] and the IndexError
    of line 231 end a run with the flag up; the ValueErrors of lines 105
    and 126 and the UnboundLocalError of line 106 end it with the flag
    down. *)
Definition flag_at_end {E : Env} : rule :=
  fun _ v st' =>
    match v with
    | Broke | Threw IndexError => stop_everything (world st') = true
    | Threw (ValueError NoMatch) | Threw (ValueError InvalidNumber)
    | Threw UnboundLocalError => stop_everything (world st') = false
    | _ => True
    end.

(** The token limits the script asks for: none (lines 111 and 161), six
    (lines 132 and 226), three (line 257). *)
Definition allowed_limit (limit : option Z) : Prop :=
  limit = None \/ limit = Some 6%Z \/ limit = Some 3%Z.

(** What a step that consults the generation function does: calls, each
    with the prompt of the session or that prompt stripped as line 258
    strips it, and nothing else; what it raises comes from the answers. *)
Definition consults {E : Env} (self : Jsonformer) : rule :=
  fun st v st' =>
    exists new,
      untouched st st' new
      /\ Forall (fun c =>
                   (fst c = get_prompt self st
                    \/ fst c = rstrip [dq; "}"%char] (get_prompt self st))
                   /\ allowed_limit (setting_max_new_tokens (snd c))) new
      /\ (forall e, v = Threw e -> generation_error e).

(** [grows p snaps q]: from the buffer [p] on, each snapshot extends the
    one before it, and [q] is the last. *)
Fixpoint grows (p : string) (snaps : list string) (q : string) : Prop :=
  match snaps with
  | [] => q = p
  | x :: rest => (exists s, x = p ++ s) /\ grows x rest q
  end.

(** The rule of streaming: what is yielded is the growth of the buffer. *)
Definition streams {E : Env} : rule :=
  fun st _ st' =>
    exists new,
      yielded st' = (yielded st ++ new)%list
      /\ grows (progress st) new (progress st').



(** The rule of a schema in good shape: what is raised comes from the
    answers of the generation function. *)
Definition raises_generation_errors {E : Env} : rule :=
  fun _ v _ => forall e, v = Threw e -> generation_error e.

(** A document as [json.loads] builds it: no dict holds a key twice. *)
Fixpoint distinct (keys : list string) : bool :=
  match keys with
  | [] => true
  | k :: rest => negb (existsb (String.eqb k) rest) && distinct rest
  end.

Fixpoint dict_like (j : json) : bool :=
  match j with
  | JArr items => forallb dict_like items
  | JObj fields =>
      distinct (map fst fields) && forallb (fun p => dict_like (snd p)) fields
  | _ => true
  end.

(** The six ValueErrors of [validate_schema] (lines 60 to 81). *)
Definition validation_error (e : exn) : Prop :=
  (exists s, e = ValueError (ExpectedObject s))
  \/ (exists s, e = ValueError (MissingType s))
  \/ (exists s, e = ValueError (MissingProperties s))
  \/ (exists s, e = ValueError (PropertiesNotObject s))
  \/ (exists s, e = ValueError (MissingItems s))
  \/ (exists ty s, e = ValueError (InvalidType ty s)).









(** The character a look-behind sees after [consumed] has been matched,
    [prev] being the one it saw before. *)
Fixpoint last_seen (prev : option ascii) (consumed : list ascii)
  : option ascii :=
  match consumed with
  | [] => prev
  | a :: rest => last_seen (Some a) rest
  end.

Create HintDb keeps.
Create HintDb fueled.
Create HintDb extends.

(** * Properties *)

(** ** The generator monad *)

Lemma bind_Done {S A B : Type} (m : M S A) (f : A -> M S B) st b st' :
  bind m f st = (Done b, st') ->
  exists a st1, m st = (Done a, st1) /\ f a st1 = (Done b, st').
Proof.
  unfold bind. destruct (m st) as [[a | e | | ] st1]; intros H;
    try discriminate. exists a, st1. split; [reflexivity | exact H].
Qed.

Lemma bind_step {S A B : Type} (m : M S A) (f : A -> M S B) st a st1 :
  m st = (Done a, st1) -> bind m f st = f a st1.
Proof. unfold bind. intros ->. reflexivity. Qed.

Lemma bind_ext {S A B : Type} (m : M S A) (f g : A -> M S B) st :
  (forall a st1, m st = (Done a, st1) -> f a st1 = g a st1) ->
  bind m f st = bind m g st.
Proof.
  unfold bind. intros H. destruct (m st) as [[a | e | | ] st1]; auto.
Qed.

Lemma bind_congr {S A B : Type} (m m' : M S A) (f g : A -> M S B) st :
  m st = m' st ->
  (forall a st1, m st = (Done a, st1) -> f a st1 = g a st1) ->
  bind m f st = bind m' g st.
Proof.
  unfold bind. intros <- H. destruct (m st) as [[a | e | | ] st1]; auto.
Qed.

Lemma try_ext {S A : Type} (m : M S A) (h k : value_error -> M S A) st :
  (forall v st1, m st = (Raised (ValueError v), st1) -> h v st1 = k v st1) ->
  try_value_error m h st = try_value_error m k st.
Proof.
  unfold try_value_error. intros H.
  destruct (m st) as [[a | [v | | | | | ] | | ] st1]; auto.
Qed.

Lemma try_caught {S A : Type} (m : M S A) (h : value_error -> M S A) st v st1 :
  m st = (Raised (ValueError v), st1) -> try_value_error m h st = h v st1.
Proof. unfold try_value_error. intros ->. reflexivity. Qed.

Lemma try_passed {S A : Type} (m : M S A) (h : value_error -> M S A) st a st1 :
  m st = (Done a, st1) -> try_value_error m h st = (Done a, st1).
Proof. unfold try_value_error. intros ->. reflexivity. Qed.

(** ** What a generator does to the indentation *)

Section Indentation.

Context {E : Env}.
Variable self : Jsonformer.

Lemma keeps_shifts {A : Type} (m : M State A) : keeps m -> shifts 0 m.
Proof. intros H st a st' Hm. rewrite (H _ _ _ Hm). lia. Qed.

Lemma keeps_ret {A : Type} (a : A) : keeps (ret a).
Proof. intros st r st' H. inversion H. reflexivity. Qed.

Lemma keeps_raise {A : Type} (e : exn) : keeps (@raise State A e).
Proof. intros st r st' H. inversion H. reflexivity. Qed.

Lemma keeps_out_of_fuel {A : Type} : keeps (@out_of_fuel State A).
Proof. intros st r st' H. inversion H. reflexivity. Qed.

Lemma keeps_bind {A B : Type} (m : M State A) (f : A -> M State B) :
  keeps m -> (forall a, keeps (f a)) -> keeps (bind m f).
Proof.
  intros Hm Hf st r st'. unfold bind.
  destruct (m st) as [[a | e | | ] st1] eqn:Em; intros H;
    try (inversion H; subst; exact (Hm _ _ _ Em)).
  rewrite (Hf _ _ _ _ H). exact (Hm _ _ _ Em).
Qed.

Lemma keeps_try {A : Type} (m : M State A) (h : value_error -> M State A) :
  keeps m -> (forall v, keeps (h v)) -> keeps (try_value_error m h).
Proof.
  intros Hm Hh st r st'. unfold try_value_error.
  destruct (m st) as [[a | [v | | | | | ] | | ] st1] eqn:Em; intros H;
    try (inversion H; subst; exact (Hm _ _ _ Em)).
  rewrite (Hh _ _ _ _ H). exact (Hm _ _ _ Em).
Qed.

Lemma shifts_bind {A B : Type} (d1 d2 d : Z) (m : M State A)
  (f : A -> M State B) :
  shifts d1 m -> (forall a, shifts d2 (f a)) -> d = (d1 + d2)%Z ->
  shifts d (bind m f).
Proof.
  intros Hm Hf -> st b st' H.
  destruct (bind_Done _ _ _ H) as (a & st1 & Em & Ef).
  rewrite (Hf _ _ _ _ Ef), (Hm _ _ _ Em). lia.
Qed.

Lemma shifts_then {A B : Type} (d : Z) (m : M State A) (f : A -> M State B) :
  shifts 0 m -> (forall a, shifts d (f a)) -> shifts d (bind m f).
Proof.
  intros Hm Hf. apply shifts_bind with (d1 := 0%Z) (d2 := d); auto.
Qed.

Lemma keeps_read_stop_everything : keeps read_stop_everything.
Proof. intros st r st' H. inversion H. reflexivity. Qed.

(** What [get_next_tokens] leaves behind, however it ends: one more call in
    the history, and nothing else of the session touched. *)
Lemma get_next_tokens_frame settings rx g ov st r st' :
  get_next_tokens self settings rx g ov st = (r, st') ->
  progress st' = progress st /\ indent st' = indent st
  /\ yielded st' = yielded st
  /\ calls st' = (calls st ++ [(str_or ov (get_prompt self st), settings)])%list.
Proof.
  unfold get_next_tokens.
  destruct (generation_func _ _ _) as [snaps w_end].
  destruct (consume rx g snaps None) as [text w | w | last].
  - intros H. inversion H. subst. simpl. auto.
  - intros H. inversion H. subst. simpl. auto.
  - destruct (stop_everything w_end).
    + intros H. inversion H. subst. simpl. auto.
    + destruct rx as [rx' | ]; [ | destruct last as [response | ] ];
        intros H; inversion H; subst; simpl; auto.
Qed.

Lemma keeps_get_next_tokens settings rx g ov :
  keeps (get_next_tokens self settings rx g ov).
Proof.
  intros st r st' H. apply (get_next_tokens_frame _ _ _ _ _ H).
Qed.

Lemma keeps_add_to_progress s : keeps (add_to_progress s).
Proof.
  intros st r st'. unfold add_to_progress.
  destruct (stop_everything _); intros H; inversion H; reflexivity.
Qed.

Lemma keeps_apply_indent : keeps apply_indent.
Proof. intros st r st' H. exact (keeps_add_to_progress _ _ H). Qed.

Lemma keeps_apply_newline : keeps apply_newline.
Proof. apply keeps_add_to_progress. Qed.

Lemma keeps_apply_key key : keeps (apply_key key).
Proof.
  apply keeps_bind; [apply keeps_apply_indent | intros _; apply keeps_add_to_progress].
Qed.

Lemma shifts_increase_indent : shifts 4 increase_indent.
Proof. intros st a st' H. inversion H. reflexivity. Qed.

Lemma shifts_decrease_indent : shifts (-4) decrease_indent.
Proof. intros st a st' H. inversion H. simpl. lia. Qed.

(** The leaf generators never touch the indentation. *)

Lemma keeps_generate_number_fuel fuel :
  forall t i, keeps (generate_number_fuel self fuel t i).
Proof.
  induction fuel as [ | n IH]; intros t i; simpl.
  - apply keeps_out_of_fuel.
  - unfold generate_number_body.
    apply keeps_bind; [apply keeps_get_next_tokens | intros response].
    destruct (float_of_str response); [apply keeps_ret | ].
    apply keeps_bind; [apply keeps_read_stop_everything | intros [ | ]].
    + apply keeps_ret.
    + destruct (i >? 3)%Z; [apply keeps_raise | apply IH].
Qed.

Lemma keeps_generate_boolean_fuel fuel :
  forall t i, keeps (generate_boolean_fuel self fuel t i).
Proof.
  induction fuel as [ | n IH]; intros t i; simpl.
  - apply keeps_out_of_fuel.
  - unfold generate_boolean_body.
    apply keeps_bind.
    + apply keeps_try.
      * apply keeps_bind; [apply keeps_get_next_tokens | intros response].
        destruct (_ || _); [apply keeps_ret | ].
        destruct (_ || _); apply keeps_ret.
      * intros _. apply keeps_bind; [apply keeps_read_stop_everything | intros [ | ]].
        -- apply keeps_ret.
        -- destruct (i <=? 3)%Z; [ | apply keeps_ret].
           apply keeps_bind; [apply IH | intros b; apply keeps_ret].
    + intros [b | ]; [apply keeps_ret | ].
      destruct (i <=? 3)%Z; [apply IH | apply keeps_ret].
Qed.

Lemma keeps_generate_string_fuel fuel :
  forall t i, keeps (generate_string_fuel self fuel t i).
Proof.
  induction fuel as [ | n IH]; intros t i; simpl.
  - apply keeps_out_of_fuel.
  - unfold generate_string_body.
    apply keeps_try; [apply keeps_get_next_tokens | intros v].
    apply keeps_bind; [apply keeps_read_stop_everything | intros [ | ]].
    + apply keeps_ret.
    + destruct (i <? 2)%Z; [apply IH | ].
      destruct (i <? 4)%Z; [apply keeps_ret | apply keeps_raise].
Qed.

(** The composite generators restore it, as long as the values they generate
    do. *)

Hint Resolve keeps_add_to_progress keeps_apply_indent keeps_apply_newline
  keeps_apply_key keeps_ret keeps_raise keeps_get_next_tokens keeps_shifts
  : keeps.

Section Composite.

Variable gv : json -> option string -> M State unit.
Hypothesis gv_restores : forall schema key, shifts 0 (gv schema key).

Lemma shifts_generate_object_loop properties :
  shifts 0 (generate_object_loop gv properties).
Proof.
  induction properties as [ | [key schema] rest IH]; simpl.
  - auto with keeps.
  - apply shifts_then; [auto with keeps | intros _].
    apply shifts_then; [apply gv_restores | intros _].
    apply shifts_then; [ | intros _; exact IH].
    destruct rest; auto with keeps.
Qed.

Lemma shifts_generate_object properties :
  shifts 0 (generate_object gv properties).
Proof.
  unfold generate_object.
  apply shifts_then; [auto with keeps | intros _].
  destruct properties as [ | | | | | | fields]; try auto with keeps.
  destruct fields as [ | p ps]; [auto with keeps | ].
  apply shifts_bind with (d1 := 4%Z) (d2 := (-4)%Z);
    [apply shifts_increase_indent | intros _ | reflexivity].
  apply shifts_then; [apply shifts_generate_object_loop | intros _].
  apply shifts_then; [auto with keeps | intros _].
  apply shifts_bind with (d1 := (-4)%Z) (d2 := 0%Z);
    [apply shifts_decrease_indent | intros _ | reflexivity].
  apply shifts_then; [auto with keeps | intros _].
  auto with keeps.
Qed.

Lemma shifts_generate_array_loop item_schema n :
  shifts 0 (generate_array_loop self gv item_schema n).
Proof.
  induction n as [ | n IH]; simpl.
  - auto with keeps.
  - apply shifts_then; [ | intros override].
    { intros st a st' H. inversion H. lia. }
    apply shifts_then; [auto with keeps | intros next_tokens].
    destruct (negb _); [auto with keeps | ].
    apply shifts_then; [auto with keeps | intros _].
    apply shifts_then; [auto with keeps | intros _].
    apply shifts_then; [auto with keeps | intros _].
    apply shifts_then; [apply gv_restores | intros _].
    apply shifts_then; [exact IH | intros more].
    auto with keeps.
Qed.

Lemma shifts_generate_array item_schema :
  shifts 0 (generate_array self gv item_schema).
Proof.
  unfold generate_array, emptiness_probe.
  apply shifts_then; [auto with keeps | intros chars].
  destruct (last_char chars) as [c | ]; [ | auto with keeps].
  destruct (Ascii.eqb c _).
  - apply shifts_then; [auto with keeps | intros _]. auto with keeps.
  - apply shifts_then; [auto with keeps | intros _].
    apply shifts_then; [auto with keeps | intros _].
    apply shifts_bind with (d1 := 4%Z) (d2 := (-4)%Z);
      [apply shifts_increase_indent | intros _ | reflexivity].
    apply shifts_then; [auto with keeps | intros _].
    apply shifts_then; [apply gv_restores | intros _].
    apply shifts_then; [apply shifts_generate_array_loop | intros more].
    apply shifts_then; [auto with keeps | intros _].
    apply shifts_bind with (d1 := (-4)%Z) (d2 := 0%Z);
      [apply shifts_decrease_indent | intros _ | reflexivity].
    apply shifts_then; [auto with keeps | intros _].
    apply shifts_then; [auto with keeps | intros _].
    auto with keeps.
Qed.

End Composite.

Lemma shifts_generate_value fuel :
  forall schema key, shifts 0 (generate_value self fuel schema key).
Proof.
  induction fuel as [ | n IH]; intros schema key; simpl.
  - apply keeps_shifts, keeps_out_of_fuel.
  - destruct schema as [ | | | | | | fields]; try auto with keeps.
    destruct (lookup "type" fields) as [schema_type | ]; [ | auto with keeps].
    apply shifts_then; [ | intros _].
    { destruct key as [k | ]; [destruct (is_empty k) | ]; auto with keeps. }
    destruct (is_str "number" schema_type).
    { apply shifts_then; [ | intros v; auto with keeps].
      apply keeps_shifts, keeps_generate_number_fuel. }
    destruct (is_str "boolean" schema_type).
    { apply shifts_then; [ | intros v; auto with keeps].
      apply keeps_shifts, keeps_generate_boolean_fuel. }
    destruct (is_str "string" schema_type).
    { apply shifts_then; [auto with keeps | intros _].
      apply shifts_then; [ | intros s].
      { apply keeps_shifts, keeps_generate_string_fuel. }
      apply shifts_then; [auto with keeps | intros _; auto with keeps]. }
    destruct (is_str "array" schema_type).
    { destruct (lookup "items" fields) as [items | ]; [ | auto with keeps].
      apply shifts_then; [ | intros count; auto with keeps].
      apply shifts_generate_array. exact IH. }
    destruct (is_str "object" schema_type).
    { destruct (lookup "properties" fields) as [properties | ]; [ | auto with keeps].
      apply shifts_generate_object. exact IH. }
    auto with keeps.
Qed.

End Indentation.

(** ** The retry chains *)

Section Retries.

Context {E : Env}.
Variable self : Jsonformer.

(** The measure is enough: each generator is its body applied to itself. *)

Lemma generate_number_unfold t i st :
  generate_number self t i st
  = generate_number_body self (generate_number self) t i st.
Proof.
  unfold generate_number at 1. unfold retry_budget.
  cbn [generate_number_fuel]. unfold generate_number_body.
  apply bind_ext. intros response st1 _.
  destruct (float_of_str response); [reflexivity | ].
  apply bind_ext. intros [ | ] st2 _; [reflexivity | ].
  destruct (i >? 3)%Z eqn:Hi; [reflexivity | ].
  unfold generate_number.
  replace (retry_budget 4 (i + 1)) with (Z.to_nat (4 - i)); [reflexivity | ].
  unfold retry_budget. lia.
Qed.

Lemma generate_boolean_unfold t i st :
  generate_boolean self t i st
  = generate_boolean_body self (generate_boolean self) t i st.
Proof.
  unfold generate_boolean at 1. unfold retry_budget.
  cbn [generate_boolean_fuel]. unfold generate_boolean_body.
  assert (Hrec : (i <=? 3)%Z = true ->
                 forall t' st',
                   generate_boolean_fuel self (Z.to_nat (4 - i)) t' (i + 1)%Z st'
                   = generate_boolean self t' (i + 1)%Z st').
  { intros Hi t' st'. unfold generate_boolean.
    replace (Z.to_nat (4 - i)) with (retry_budget 4 (i + 1));
      [reflexivity | unfold retry_budget; lia]. }
  apply bind_congr.
  - apply try_ext. intros v st1 _.
    apply bind_ext. intros [ | ] st2 _; [reflexivity | ].
    destruct (i <=? 3)%Z eqn:Hi; [ | reflexivity].
    apply bind_congr; [apply (Hrec eq_refl) | reflexivity].
  - intros [b | ] st1 _; [reflexivity | ].
    destruct (i <=? 3)%Z eqn:Hi; [ | reflexivity].
    apply (Hrec eq_refl).
Qed.

Lemma generate_string_unfold t i st :
  generate_string self t i st
  = generate_string_body self (generate_string self) t i st.
Proof.
  unfold generate_string at 1. unfold retry_budget.
  cbn [generate_string_fuel]. unfold generate_string_body.
  apply try_ext. intros v st1 _.
  apply bind_ext. intros [ | ] st2 _; [reflexivity | ].
  destruct (i <? 2)%Z eqn:Hi; [ | reflexivity].
  unfold generate_string.
  replace (retry_budget 2 (i + 1)) with (Z.to_nat (2 - i)); [reflexivity | ].
  unfold retry_budget. lia.
Qed.

End Retries.

(** ** The measure of the model is enough

    No generator of the model ever stops for want of fuel: every outcome of
    the model is an outcome of the script. *)

Section Fuel.

Context {E : Env}.
Variable self : Jsonformer.

Lemma fueled_ret {A : Type} (a : A) : fueled (ret a).
Proof. intros st. discriminate. Qed.

Lemma fueled_raise {A : Type} (e : exn) : fueled (@raise State A e).
Proof. intros st. discriminate. Qed.

Lemma fueled_bind {A B : Type} (m : M State A) (f : A -> M State B) :
  fueled m -> (forall a, fueled (f a)) -> fueled (bind m f).
Proof.
  intros Hm Hf st. unfold bind. specialize (Hm st).
  destruct (m st) as [[a | e | | ] st1]; try discriminate.
  - apply Hf.
  - intros _. apply Hm. reflexivity.
Qed.

Lemma fueled_try {A : Type} (m : M State A) (h : value_error -> M State A) :
  fueled m -> (forall v, fueled (h v)) -> fueled (try_value_error m h).
Proof.
  intros Hm Hh st. unfold try_value_error. specialize (Hm st).
  destruct (m st) as [[a | [v | | | | | ] | | ] st1]; try discriminate.
  - apply Hh.
  - exact Hm.
Qed.

Lemma fueled_read_stop_everything : fueled read_stop_everything.
Proof. intros st. discriminate. Qed.

Lemma fueled_get_next_tokens settings rx g ov :
  fueled (get_next_tokens self settings rx g ov).
Proof.
  intros st. unfold get_next_tokens.
  destruct (generation_func _ _ _) as [snaps w_end].
  destruct (consume rx g snaps None) as [text w | w | last];
    try discriminate.
  destruct (stop_everything w_end); [discriminate | ].
  destruct rx; [ | destruct last]; discriminate.
Qed.

Lemma fueled_add_to_progress s : fueled (add_to_progress s).
Proof.
  intros st. unfold add_to_progress. destruct (stop_everything _); discriminate.
Qed.

Lemma fueled_apply_indent : fueled apply_indent.
Proof. intros st. apply fueled_add_to_progress. Qed.

Lemma fueled_apply_newline : fueled apply_newline.
Proof. apply fueled_add_to_progress. Qed.

Lemma fueled_indent_moves : fueled increase_indent /\ fueled decrease_indent.
Proof. split; intros st; discriminate. Qed.

Hint Resolve fueled_ret fueled_raise fueled_read_stop_everything
  fueled_get_next_tokens fueled_add_to_progress fueled_apply_indent
  fueled_apply_newline : fueled.

Lemma fueled_apply_key key : fueled (apply_key key).
Proof. apply fueled_bind; auto with fueled. Qed.

Lemma fueled_generate_number n :
  forall t i, (Z.to_nat (4 - i) <= n)%nat -> fueled (generate_number self t i).
Proof.
  induction n as [ | n IH]; intros t i Hn st;
    rewrite generate_number_unfold; revert st;
    change (fueled (generate_number_body self (generate_number self) t i));
    unfold generate_number_body;
    (apply fueled_bind; [auto with fueled | intros response]);
    (destruct (float_of_str response); [auto with fueled | ]);
    (apply fueled_bind; [auto with fueled | intros [ | ]; [auto with fueled | ] ]);
    (destruct (i >? 3)%Z eqn:Hi; [auto with fueled | ]);
    rewrite Z.gtb_ltb in Hi; apply Z.ltb_ge in Hi.
  - lia.
  - apply IH. lia.
Qed.

Lemma fueled_generate_boolean n :
  forall t i, (Z.to_nat (4 - i) <= n)%nat -> fueled (generate_boolean self t i).
Proof.
  induction n as [ | n IH]; intros t i Hn st;
    rewrite generate_boolean_unfold; revert st;
    change (fueled (generate_boolean_body self (generate_boolean self) t i));
    unfold generate_boolean_body;
    assert (Hrec : (i <=? 3)%Z = true ->
                   fueled (generate_boolean self
                             (Some (float_or t (temperature self) * escalation)%float)
                             (i + 1)%Z)).
  1, 3: intros Hi; apply Z.leb_le in Hi.
  - lia.
  - apply IH. lia.
  - apply fueled_bind.
    + apply fueled_try.
      * apply fueled_bind; [auto with fueled | intros response].
        destruct (_ || _); [auto with fueled | ].
        destruct (_ || _); auto with fueled.
      * intros _. apply fueled_bind; [auto with fueled | intros [ | ] ];
          [auto with fueled | ].
        destruct (i <=? 3)%Z; [ | auto with fueled].
        apply fueled_bind; [auto | auto with fueled].
    + intros [b | ]; [auto with fueled | ].
      destruct (i <=? 3)%Z; [auto | auto with fueled].
  - apply fueled_bind.
    + apply fueled_try.
      * apply fueled_bind; [auto with fueled | intros response].
        destruct (_ || _); [auto with fueled | ].
        destruct (_ || _); auto with fueled.
      * intros _. apply fueled_bind; [auto with fueled | intros [ | ] ];
          [auto with fueled | ].
        destruct (i <=? 3)%Z; [ | auto with fueled].
        apply fueled_bind; [auto | auto with fueled].
    + intros [b | ]; [auto with fueled | ].
      destruct (i <=? 3)%Z; [auto | auto with fueled].
Qed.

Lemma fueled_generate_string n :
  forall t i, (Z.to_nat (2 - i) <= n)%nat -> fueled (generate_string self t i).
Proof.
  induction n as [ | n IH]; intros t i Hn st;
    rewrite generate_string_unfold; revert st;
    change (fueled (generate_string_body self (generate_string self) t i));
    unfold generate_string_body;
    (apply fueled_try; [auto with fueled | intros v]);
    (apply fueled_bind; [auto with fueled | intros [ | ]; [auto with fueled | ] ]);
    (destruct (i <? 2)%Z eqn:Hi;
     [apply Z.ltb_lt in Hi | destruct (i <? 4)%Z; auto with fueled]).
  - lia.
  - apply IH. lia.
Qed.

Lemma depth_in k v fields :
  In (k, v) fields -> (json_depth v < json_depth (JObj fields))%nat.
Proof.
  induction fields as [ | [k' v'] rest IH]; intros Hin; [destruct Hin | ].
  cbn [json_depth fold_right snd] in *.
  destruct Hin as [Heq | Hin].
  - inversion Heq. subst. lia.
  - specialize (IH Hin). lia.
Qed.

Lemma lookup_in k fields v : lookup k fields = Some v -> In (k, v) fields.
Proof.
  induction fields as [ | [k' v'] rest IH]; simpl; [discriminate | ].
  destruct (String.eqb k' k) eqn:Hk.
  - intros H. inversion H. subst. apply String.eqb_eq in Hk. subst. auto.
  - auto.
Qed.

Lemma depth_lookup k fields v :
  lookup k fields = Some v -> (json_depth v < json_depth (JObj fields))%nat.
Proof. intros H. exact (depth_in _ _ _ (lookup_in _ _ H)). Qed.

Section CompositeFuel.

Variable gv : json -> option string -> M State unit.

Lemma fueled_generate_object_loop properties :
  (forall k v key, In (k, v) properties -> fueled (gv v key)) ->
  fueled (generate_object_loop gv properties).
Proof.
  induction properties as [ | [key schema] rest IH]; intros Hgv; simpl.
  - auto with fueled.
  - apply fueled_bind; [auto with fueled | intros _].
    apply fueled_bind; [apply (Hgv key); left; reflexivity | intros _].
    apply fueled_bind; [destruct rest; auto with fueled | intros _].
    apply IH. intros k v key' Hin. apply (Hgv k). right. exact Hin.
Qed.

Lemma fueled_generate_object properties :
  (forall k v key fields,
      properties = JObj fields -> In (k, v) fields -> fueled (gv v key)) ->
  fueled (generate_object gv properties).
Proof.
  intros Hgv. unfold generate_object.
  apply fueled_bind; [auto with fueled | intros _].
  destruct properties as [ | | | | | | fields]; auto with fueled.
  destruct fields as [ | p ps]; [auto with fueled | ].
  apply fueled_bind; [apply fueled_indent_moves | intros _].
  apply fueled_bind;
    [apply fueled_generate_object_loop; intros k v key;
     apply (Hgv k v key _ eq_refl)
    | intros _].
  apply fueled_bind; [auto with fueled | intros _].
  apply fueled_bind; [apply fueled_indent_moves | intros _].
  apply fueled_bind; auto with fueled.
Qed.

Lemma fueled_generate_array_loop item_schema n :
  (forall key, fueled (gv item_schema key)) ->
  fueled (generate_array_loop self gv item_schema n).
Proof.
  intros Hgv. induction n as [ | n IH]; simpl; [auto with fueled | ].
  apply fueled_bind; [intros st; discriminate | intros override].
  apply fueled_bind; [auto with fueled | intros next_tokens].
  destruct (negb _); [auto with fueled | ].
  apply fueled_bind; [auto with fueled | intros _].
  apply fueled_bind; [auto with fueled | intros _].
  apply fueled_bind; [auto with fueled | intros _].
  apply fueled_bind; [apply Hgv | intros _].
  apply fueled_bind; [exact IH | intros more; auto with fueled].
Qed.

Lemma fueled_generate_array item_schema :
  (forall key, fueled (gv item_schema key)) ->
  fueled (generate_array self gv item_schema).
Proof.
  intros Hgv. unfold generate_array, emptiness_probe.
  apply fueled_bind; [auto with fueled | intros chars].
  destruct (last_char chars) as [c | ]; [ | auto with fueled].
  destruct (Ascii.eqb c _).
  - apply fueled_bind; auto with fueled.
  - apply fueled_bind; [auto with fueled | intros _].
    apply fueled_bind; [auto with fueled | intros _].
    apply fueled_bind; [apply fueled_indent_moves | intros _].
    apply fueled_bind; [auto with fueled | intros _].
    apply fueled_bind; [apply Hgv | intros _].
    apply fueled_bind;
      [apply fueled_generate_array_loop; exact Hgv | intros more].
    apply fueled_bind; [auto with fueled | intros _].
    apply fueled_bind; [apply fueled_indent_moves | intros _].
    apply fueled_bind; [auto with fueled | intros _].
    apply fueled_bind; auto with fueled.
Qed.

End CompositeFuel.

(** Fuel above the depth of the schema is never used up. *)
Lemma fueled_generate_value fuel :
  forall schema key,
    (json_depth schema < fuel)%nat ->
    fueled (generate_value self fuel schema key).
Proof.
  induction fuel as [ | n IH]; intros schema key Hdepth; [lia | ].
  cbn [generate_value].
  destruct schema as [ | | | | | | fields]; auto with fueled.
  destruct (lookup "type" fields) as [schema_type | ]; [ | auto with fueled].
  apply fueled_bind.
  { destruct key as [k | ]; [destruct (is_empty k) | ]; auto with fueled.
    apply fueled_apply_key. }
  intros _.
  destruct (is_str "number" schema_type).
  { apply fueled_bind; [ | intros v; auto with fueled].
    apply fueled_generate_number with (n := 4%nat). reflexivity. }
  destruct (is_str "boolean" schema_type).
  { apply fueled_bind; [ | intros v; auto with fueled].
    apply fueled_generate_boolean with (n := 4%nat). reflexivity. }
  destruct (is_str "string" schema_type).
  { apply fueled_bind; [auto with fueled | intros _].
    apply fueled_bind;
      [apply fueled_generate_string with (n := 2%nat); reflexivity | intros s].
    apply fueled_bind; auto with fueled. }
  destruct (is_str "array" schema_type).
  { destruct (lookup "items" fields) as [items | ] eqn:Hitems;
      [ | auto with fueled].
    apply fueled_bind; [ | intros count; auto with fueled].
    apply fueled_generate_array. intros key'. apply IH.
    apply depth_lookup in Hitems. lia. }
  destruct (is_str "object" schema_type).
  { destruct (lookup "properties" fields) as [properties | ] eqn:Hprops;
      [ | auto with fueled].
    apply fueled_generate_object. intros k v key' props -> Hin. apply IH.
    apply depth_lookup in Hprops. apply depth_in in Hin. lia. }
  auto with fueled.
Qed.

End Fuel.

(** X1.  Every run ends as the script ends it: by running to its end, by an
    exception, or by the break of [__call__].  The retry chains of the
    three leaf generators stop by their own counters, whatever the count
    they are entered with, and the descent of [generate_value] never goes
    deeper than the schema. *)
Theorem measure_is_enough {E : Env} (self : Jsonformer) :
  (forall t i, fueled (generate_number self t i))
  /\ (forall t i, fueled (generate_boolean self t i))
  /\ (forall t i, fueled (generate_string self t i))
  /\ (forall w, fst (call self w) <> OutOfFuel).
Proof.
  repeat split.
  - intros t i. apply fueled_generate_number with (n := Z.to_nat (4 - i)). lia.
  - intros t i. apply fueled_generate_boolean with (n := Z.to_nat (4 - i)). lia.
  - intros t i. apply fueled_generate_string with (n := Z.to_nat (2 - i)). lia.
  - intros w. apply fueled_generate_value. lia.
Qed.

(** ** The buffer only grows *)

Section Buffer.

Context {E : Env}.
Variable self : Jsonformer.

Lemma append_empty_r s : s ++ EmptyString = s.
Proof. induction s as [ | a s IH]; simpl; [ | rewrite IH]; reflexivity. Qed.

Lemma append_assoc s1 s2 s3 : (s1 ++ s2) ++ s3 = s1 ++ (s2 ++ s3).
Proof. induction s1 as [ | a s1 IH]; simpl; [ | rewrite IH]; reflexivity. Qed.

Lemma extends_same {A : Type} (m : M State A) :
  (forall st, progress (snd (m st)) = progress st) -> extends m.
Proof.
  intros H st. exists EmptyString. rewrite H, append_empty_r. reflexivity.
Qed.

Lemma extends_ret {A : Type} (a : A) : extends (ret a).
Proof. apply extends_same. reflexivity. Qed.

Lemma extends_raise {A : Type} (e : exn) : extends (@raise State A e).
Proof. apply extends_same. reflexivity. Qed.

Lemma extends_out_of_fuel {A : Type} : extends (@out_of_fuel State A).
Proof. apply extends_same. reflexivity. Qed.

Lemma extends_bind {A B : Type} (m : M State A) (f : A -> M State B) :
  extends m -> (forall a, extends (f a)) -> extends (bind m f).
Proof.
  intros Hm Hf st. unfold bind. destruct (Hm st) as [s1 H1].
  destruct (m st) as [[a | e | | ] st1]; simpl in *;
    try (exists s1; exact H1).
  destruct (Hf a st1) as [s2 H2]. exists (s1 ++ s2).
  rewrite H2, H1. apply append_assoc.
Qed.

Lemma extends_try {A : Type} (m : M State A) (h : value_error -> M State A) :
  extends m -> (forall v, extends (h v)) -> extends (try_value_error m h).
Proof.
  intros Hm Hh st. unfold try_value_error. destruct (Hm st) as [s1 H1].
  destruct (m st) as [[a | [v | | | | | ] | | ] st1]; simpl in *;
    try (exists s1; exact H1).
  destruct (Hh v st1) as [s2 H2]. exists (s1 ++ s2).
  rewrite H2, H1. apply append_assoc.
Qed.

Lemma extends_read_stop_everything : extends read_stop_everything.
Proof. apply extends_same. reflexivity. Qed.

Lemma extends_get_next_tokens settings rx g ov :
  extends (get_next_tokens self settings rx g ov).
Proof.
  apply extends_same. intros st.
  destruct (get_next_tokens self settings rx g ov st) as [r st'] eqn:H.
  apply (get_next_tokens_frame _ _ _ _ _ _ H).
Qed.

Lemma extends_add_to_progress s : extends (add_to_progress s).
Proof.
  intros st. exists s. unfold add_to_progress.
  destruct (stop_everything _); reflexivity.
Qed.

Lemma extends_apply_indent : extends apply_indent.
Proof. intros st. apply extends_add_to_progress. Qed.

Lemma extends_apply_newline : extends apply_newline.
Proof. apply extends_add_to_progress. Qed.

Lemma extends_increase_indent : extends increase_indent.
Proof. apply extends_same. reflexivity. Qed.

Lemma extends_decrease_indent : extends decrease_indent.
Proof. apply extends_same. reflexivity. Qed.

Hint Resolve extends_ret extends_raise extends_out_of_fuel
  extends_read_stop_everything extends_get_next_tokens
  extends_add_to_progress extends_apply_indent extends_apply_newline
  extends_increase_indent extends_decrease_indent extends_bind extends_try
  : extends.

Lemma extends_apply_key key : extends (apply_key key).
Proof. unfold apply_key. auto with extends. Qed.

Lemma extends_generate_number_fuel fuel :
  forall t i, extends (generate_number_fuel self fuel t i).
Proof.
  induction fuel as [ | n IH]; intros t i; simpl; [auto with extends | ].
  unfold generate_number_body.
  apply extends_bind; [auto with extends | intros response].
  destruct (float_of_str response); [auto with extends | ].
  apply extends_bind; [auto with extends | intros [ | ] ]; [auto with extends | ].
  destruct (i >? 3)%Z; auto with extends.
Qed.

Lemma extends_generate_boolean_fuel fuel :
  forall t i, extends (generate_boolean_fuel self fuel t i).
Proof.
  induction fuel as [ | n IH]; intros t i; simpl; [auto with extends | ].
  unfold generate_boolean_body. apply extends_bind.
  - apply extends_try.
    + apply extends_bind; [auto with extends | intros response].
      destruct (_ || _); [auto with extends | ].
      destruct (_ || _); auto with extends.
    + intros _.
      apply extends_bind; [auto with extends | intros [ | ] ];
        [auto with extends | ].
      destruct (i <=? 3)%Z; auto with extends.
  - intros [b | ]; [auto with extends | ].
    destruct (i <=? 3)%Z; auto with extends.
Qed.

Lemma extends_generate_string_fuel fuel :
  forall t i, extends (generate_string_fuel self fuel t i).
Proof.
  induction fuel as [ | n IH]; intros t i; simpl; [auto with extends | ].
  unfold generate_string_body.
  apply extends_try; [auto with extends | intros v].
  apply extends_bind; [auto with extends | intros [ | ] ]; [auto with extends | ].
  destruct (i <? 2)%Z; [auto | ].
  destruct (i <? 4)%Z; auto with extends.
Qed.

Section CompositeBuffer.

Variable gv : json -> option string -> M State unit.
Hypothesis gv_extends : forall schema key, extends (gv schema key).

Lemma extends_generate_object_loop properties :
  extends (generate_object_loop gv properties).
Proof.
  induction properties as [ | [key schema] rest IH]; simpl;
    [auto with extends | ].
  apply extends_bind; [auto with extends | intros _].
  apply extends_bind; [apply gv_extends | intros _].
  apply extends_bind; [destruct rest; auto with extends | intros _; exact IH].
Qed.

Lemma extends_generate_object properties :
  extends (generate_object gv properties).
Proof.
  unfold generate_object.
  apply extends_bind; [auto with extends | intros _].
  destruct properties as [ | | | | | | fields]; auto with extends.
  destruct fields as [ | p ps]; [auto with extends | ].
  apply extends_bind; [auto with extends | intros _].
  apply extends_bind; [apply extends_generate_object_loop | intros _].
  auto 10 with extends.
Qed.

Lemma extends_generate_array_loop item_schema n :
  extends (generate_array_loop self gv item_schema n).
Proof.
  induction n as [ | n IH]; simpl; [auto with extends | ].
  apply extends_bind; [apply extends_same; reflexivity | intros override].
  apply extends_bind; [auto with extends | intros next_tokens].
  destruct (negb _); [auto with extends | ].
  apply extends_bind; [auto with extends | intros _].
  apply extends_bind; [auto with extends | intros _].
  apply extends_bind; [auto with extends | intros _].
  apply extends_bind; [apply gv_extends | intros _].
  apply extends_bind; [exact IH | intros more; auto with extends].
Qed.

Lemma extends_generate_array item_schema :
  extends (generate_array self gv item_schema).
Proof.
  unfold generate_array, emptiness_probe.
  apply extends_bind; [auto with extends | intros chars].
  destruct (last_char chars) as [c | ]; [ | auto with extends].
  destruct (Ascii.eqb c _); [auto with extends | ].
  apply extends_bind; [auto with extends | intros _].
  apply extends_bind; [auto with extends | intros _].
  apply extends_bind; [auto with extends | intros _].
  apply extends_bind; [auto with extends | intros _].
  apply extends_bind; [apply gv_extends | intros _].
  apply extends_bind; [apply extends_generate_array_loop | intros more].
  auto 10 with extends.
Qed.

End CompositeBuffer.

Lemma extends_generate_value fuel :
  forall schema key, extends (generate_value self fuel schema key).
Proof.
  induction fuel as [ | n IH]; intros schema key; cbn [generate_value];
    [auto with extends | ].
  destruct schema as [ | | | | | | fields]; auto with extends.
  destruct (lookup "type" fields) as [schema_type | ]; [ | auto with extends].
  apply extends_bind.
  { destruct key as [k | ]; [destruct (is_empty k) | ]; auto with extends.
    apply extends_apply_key. }
  intros _.
  destruct (is_str "number" schema_type).
  { apply extends_bind; [ | intros v; auto with extends].
    apply extends_generate_number_fuel. }
  destruct (is_str "boolean" schema_type).
  { apply extends_bind; [ | intros v; auto with extends].
    apply extends_generate_boolean_fuel. }
  destruct (is_str "string" schema_type).
  { apply extends_bind; [auto with extends | intros _].
    apply extends_bind; [apply extends_generate_string_fuel | intros s].
    auto with extends. }
  destruct (is_str "array" schema_type).
  { destruct (lookup "items" fields) as [items | ]; [ | auto with extends].
    apply extends_bind; [ | intros count; auto with extends].
    apply extends_generate_array. exact IH. }
  destruct (is_str "object" schema_type).
  { destruct (lookup "properties" fields) as [properties | ];
      [ | auto with extends].
    apply extends_generate_object. exact IH. }
  auto with extends.
Qed.

End Buffer.

(** X2.  The buffer is append-only within a run: whatever [generate_value]
    does and however it ends, the buffer it leaves is the buffer it found
    with something appended. *)
Theorem buffer_append_only {E : Env} (self : Jsonformer) (fuel : nat)
  (schema : json) (key : option string) (st : State) :
  exists appended,
    progress (snd (generate_value self fuel schema key st))
    = progress st ++ appended.
Proof. apply extends_generate_value. Qed.

(** X3.  The token acquirer does not touch the session: the buffer, the
    indentation and the snapshots yielded are what they were, and the one
    thing it does is one call of the generation function, with the prompt
    override when there is one that is not empty and the prompt of the
    session otherwise. *)
Theorem acquirer_leaves_session {E : Env} (self : Jsonformer)
  (settings : GenerationSettings) (rx : option regex) (g : nat)
  (ov : option string) (st : State) :
  let st' := snd (get_next_tokens self settings rx g ov st) in
  progress st' = progress st
  /\ indent st' = indent st
  /\ yielded st' = yielded st
  /\ calls st'
     = (calls st ++ [(str_or ov (get_prompt self st), settings)])%list.
Proof.
  intros st'.
  destruct (get_next_tokens self settings rx g ov st) as [r st1] eqn:H.
  exact (get_next_tokens_frame _ _ _ _ _ _ H).
Qed.

(** ** The end-to-end example *)

(** C1.  For the schema of an object with a string property name and a
    number property age, and an oracle scripted to answer the name slot with
    Ann and the age slot with 30, the session runs to its end and its final
    buffer is an opening brace, a newline, four spaces and the name entry
    with its comma, a newline, four spaces and the age entry with the value
    30.0, a newline and the closing brace. *)
Theorem end_to_end_example :
  exists st,
    custom_generate_reply (E := Scripted.env Scripted.ann_oracle)
      true true true (Some Scripted.person_schema) "Describe Ann."
      0.5%float Scripted.start
    = Constrained (Done tt, st)
    /\ progress st
       = "{" ++ chr nl ++ "    " ++ chr dq ++ "name" ++ chr dq ++ ": "
         ++ chr dq ++ "Ann" ++ chr dq ++ "," ++ chr nl
         ++ "    " ++ chr dq ++ "age" ++ chr dq ++ ": 30.0" ++ chr nl ++ "}".
Proof.
  pose (run := call (E := Scripted.env Scripted.ann_oracle)
                 (Scripted.session Scripted.person_schema 10)
                 (Scripted.stop false Scripted.start)).
  assert (Hfst : fst run = Done tt) by (vm_compute; reflexivity).
  exists (snd run). split.
  - change (Constrained run = Constrained (Done tt, snd run)).
    rewrite <- Hfst. rewrite <- surjective_pairing. reflexivity.
  - vm_compute. reflexivity.
Qed.

(** ** Indentation *)

(** C9.  Whenever [generate_object] or [generate_array] runs to its end, the
    indentation counter is what it was on entry, whatever the schema and
    whatever the depth at which the generator was entered; so a whole run,
    which starts at indentation 0, ends at indentation 0. *)
Theorem indent_restored {E : Env} (self : Jsonformer) (fuel : nat) :
  (forall properties st st',
      generate_object (generate_value self fuel) properties st = (Done tt, st') ->
      indent st' = indent st)
  /\ (forall item_schema st n st',
         generate_array self (generate_value self fuel) item_schema st
         = (Done n, st') ->
         indent st' = indent st)
  /\ (forall w st', call self w = (Done tt, st') -> indent st' = 0%Z).
Proof.
  split; [ | split].
  - intros properties st st' H.
    assert (Hs : shifts 0 (generate_object (generate_value self fuel) properties))
      by apply shifts_generate_object, shifts_generate_value.
    rewrite (Hs _ _ _ H). lia.
  - intros item_schema st n st' H.
    assert (Hs : shifts 0 (generate_array self (generate_value self fuel)
                             item_schema))
      by apply shifts_generate_array, shifts_generate_value.
    rewrite (Hs _ _ _ H). lia.
  - intros w st' H. unfold call in H.
    rewrite (shifts_generate_value self _ _ _ _ H). reflexivity.
Qed.

(** The run of the end-to-end example is such a run. *)
Lemma indent_restored_witness :
  indent (snd (call (E := Scripted.env Scripted.ann_oracle)
                 (Scripted.session Scripted.person_schema 10) Scripted.start))
  = 0%Z.
Proof.
  apply (proj2 (proj2 (indent_restored (E := Scripted.env Scripted.ann_oracle)
                         (Scripted.session Scripted.person_schema 10) 0)))
    with (w := Scripted.start).
  rewrite (surjective_pairing (call _ _)) at 1. f_equal.
Defined.

(** ** Arrays *)

Section Arrays.

Context {E : Env}.
Variable self : Jsonformer.
Variable gv : json -> option string -> M State unit.

Lemma contains_append c a b :
  contains c (a ++ b) = contains c a || contains c b.
Proof.
  induction a as [ | x a IH]; simpl; [reflexivity | ].
  rewrite IH. apply orb_assoc.
Qed.

Lemma contains_chr c : contains c (chr c) = true.
Proof. simpl. rewrite Ascii.eqb_refl. reflexivity. Qed.

(** Stripping cannot empty a string that holds a character outside the
    stripped set. *)
Lemma rstrip_keeps c chars s :
  contains c s = true -> mem c chars = false ->
  is_empty (rstrip chars s) = false.
Proof.
  induction s as [ | a s IH]; simpl; [discriminate | ].
  intros Hc Hm.
  destruct (is_empty (rstrip chars s)) eqn:Es; [ | reflexivity].
  destruct (Ascii.eqb a c) eqn:Eac.
  - apply Ascii.eqb_eq in Eac. subst a. rewrite Hm. reflexivity.
  - simpl in Hc. discriminate (IH Hc Hm).
Qed.

Lemma get_prompt_has_newline st : contains nl (get_prompt self st) = true.
Proof.
  unfold get_prompt. destruct (manual_prompt self);
    rewrite contains_append, (contains_append nl (chr nl)), contains_chr;
    apply orb_true_r.
Qed.

(** The prompt of a continuation probe is never empty, so line 89 passes it
    on as it is. *)
Lemma continuation_override st :
  str_or (Some (rstrip [dq; "}"%char] (get_prompt self st))) (get_prompt self st)
  = rstrip [dq; "}"%char] (get_prompt self st).
Proof.
  unfold str_or.
  rewrite (rstrip_keeps nl [dq; "}"%char] _ (get_prompt_has_newline st) eq_refl).
  reflexivity.
Qed.

Lemma generate_array_loop_bound item_schema n :
  forall st c st',
    generate_array_loop self gv item_schema n st = (Done c, st') ->
    (c <= n)%nat.
Proof.
  induction n as [ | n IH]; intros st c st' H; cbn [generate_array_loop] in H.
  - inversion H. lia.
  - do 2 (apply bind_Done in H as (? & ? & ? & H)).
    destruct (negb _).
    + inversion H. lia.
    + do 5 (apply bind_Done in H as (? & ? & ? & H)). inversion H. subst c.
      match goal with
      | Hl : generate_array_loop _ _ _ _ _ = _ |- _ => apply IH in Hl
      end. lia.
Qed.

End Arrays.

(** C2, as amended.  The number of elements [generate_array] generates
    never exceeds the larger of 1 and [max_array_length], whatever the item
    schema and the oracle: the first element of an array that is not empty
    is generated without consulting the bound.  And when the text captured
    by the emptiness probe ends in a closing bracket, [generate_array]
    appends exactly the two brackets to the buffer, generates no element and
    calls the oracle no more. *)
Theorem array_length_bounded {E : Env} (self : Jsonformer)
  (gv : json -> option string -> M State unit) (item_schema : json)
  (st : State) :
  (forall n st',
      generate_array self gv item_schema st = (Done n, st') ->
      (Z.of_nat n <= Z.max 1 (max_array_length self))%Z)
  /\ (forall chars st1,
         emptiness_probe self st = (Done chars, st1) ->
         last_char chars = Some "]"%char ->
         exists r st',
           generate_array self gv item_schema st = (r, st')
           /\ (r = Done 0%nat \/ r = Halted)
           /\ progress st' = progress st ++ "[]"
           /\ indent st' = indent st
           /\ calls st' = calls st1).
Proof.
  split.
  - intros n st' H. unfold generate_array in H.
    apply bind_Done in H as (chars & ? & ? & H).
    destruct (last_char chars) as [c | ]; [ | discriminate].
    destruct (Ascii.eqb c "]").
    + apply bind_Done in H as (? & ? & ? & H). inversion H. lia.
    + do 6 (apply bind_Done in H as (? & ? & ? & H)).
      match goal with
      | Hl : generate_array_loop _ _ _ _ _ = _ |- _ =>
          apply generate_array_loop_bound in Hl
      end.
      do 4 (apply bind_Done in H as (? & ? & ? & H)). inversion H. lia.
  - intros chars st1 Hprobe Hlast.
    destruct (get_next_tokens_frame _ _ _ _ _ _ Hprobe) as (Hp & Hi & _ & _).
    unfold generate_array. rewrite (bind_step _ _ _ Hprobe), Hlast.
    cbn [Ascii.eqb Bool.eqb]. unfold bind, add_to_progress.
    destruct (stop_everything _); eexists; eexists;
      (split; [reflexivity | ]); simpl; rewrite Hp, Hi; auto.
Qed.

(** The oracle answers the probe with the two brackets: the array is
    empty. *)
Lemma array_length_bounded_witness :
  let E := Scripted.env (Scripted.say_oracle "[]") in
  let self := Scripted.session (Scripted.array_schema Scripted.boolean_schema) 10 in
  exists r st',
    generate_array (E := E) self (generate_value self 1) Scripted.boolean_schema
      (initial_state (E := E) Scripted.start)
    = (r, st')
    /\ (r = Done 0%nat \/ r = Halted)
    /\ progress st' = "[]".
Proof.
  intros E self.
  destruct (proj2 (array_length_bounded self (generate_value self 1)
                     Scripted.boolean_schema
                     (initial_state (E := E) Scripted.start))
              "[]" _ eq_refl eq_refl) as (r & st' & Hrun & Hr & Hp & _).
  exists r, st'. repeat split; assumption.
Defined.

(** With [max_array_length] at 0 an array of one element is generated: the
    oracle starts an array, the first element is generated unconditionally,
    and the loop of line 244 runs no iteration. *)
Lemma array_longer_than_max_array_length :
  let self := Scripted.session (Scripted.array_schema Scripted.boolean_schema) 0 in
  let run :=
    generate_array (E := Scripted.env Scripted.true_oracle) self
      (generate_value self 1) Scripted.boolean_schema
      (initial_state (E := Scripted.env Scripted.true_oracle) Scripted.start) in
  fst run = Done 1%nat
  /\ progress (snd run) = "[" ++ chr nl ++ "    true" ++ chr nl ++ "]"
  /\ (max_array_length self < Z.of_nat 1)%Z.
Proof. repeat split; vm_compute; reflexivity. Qed.



(** ** The token acquirer *)

Section Acquirer.

Context {E : Env}.
Variable self : Jsonformer.

Lemma get_prompt_frame st st1 :
  progress st1 = progress st -> get_prompt self st1 = get_prompt self st.
Proof. unfold get_prompt. intros ->. reflexivity. Qed.

(** [get_next_tokens] in terms of what the loop makes of the stream. *)
Lemma get_next_tokens_scan settings rx g ov st snaps w_end :
  generation_func (str_or ov (get_prompt self st)) settings (world st)
  = (snaps, w_end) ->
  get_next_tokens self settings rx g ov st
  = let st1 := log_call (str_or ov (get_prompt self st), settings) st in
    match consume rx g snaps None with
    | Doubled w => (Raised (ValueError DoubledQuote), with_world w st1)
    | Matched text w => (Done text, with_world w st1)
    | Exhausted last =>
        if stop_everything w_end then (Done EmptyString, with_world w_end st1)
        else
          match rx, last with
          | Some _, _ => (Raised (ValueError NoMatch), with_world w_end st1)
          | None, Some response => (Done response, with_world w_end st1)
          | None, None => (Raised UnboundLocalError, with_world w_end st1)
          end
    end.
Proof. unfold get_next_tokens. intros ->. reflexivity. Qed.

End Acquirer.

(** C7, as amended.  [get_next_tokens] reads the flag once, after the loop
    over the stream: when the stream is exhausted without a match and
    without a doubled quote, and the flag is set by then, it returns the
    empty string instead of raising.  While snapshots are still being
    consumed the flag is not read: a snapshot that matches is returned, and
    one that holds a doubled quote raises, whatever the flag is at that
    moment. *)
Theorem cancellation_at_end_of_stream {E : Env} (self : Jsonformer)
  (settings : GenerationSettings) (rx : option regex) (g : nat)
  (ov : option string) (st : State) (snaps : list (string * World))
  (w_end : World)
  (Hstream : generation_func (str_or ov (get_prompt self st)) settings (world st)
             = (snaps, w_end)) :
  let st1 := log_call (str_or ov (get_prompt self st), settings) st in
  (forall last,
      consume rx g snaps None = Exhausted last ->
      stop_everything w_end = true ->
      get_next_tokens self settings rx g ov st
      = (Done EmptyString, with_world w_end st1))
  /\ (forall text w,
         consume rx g snaps None = Matched text w ->
         get_next_tokens self settings rx g ov st
         = (Done text, with_world w st1))
  /\ (forall w,
         consume rx g snaps None = Doubled w ->
         get_next_tokens self settings rx g ov st
         = (Raised (ValueError DoubledQuote), with_world w st1)).
Proof.
  intros st1.
  rewrite (@get_next_tokens_scan E self settings rx g ov st snaps w_end Hstream).
  fold st1. repeat split.
  - intros last -> ->. reflexivity.
  - intros text w ->. reflexivity.
  - intros w ->. reflexivity.
Qed.

(** A stream that the flag cuts short: the acquirer returns the empty
    string. *)
Lemma cancellation_at_end_of_stream_witness :
  fst (get_next_tokens (E := Scripted.env Scripted.stopped_oracle)
         (Scripted.session Scripted.boolean_schema 10)
         {| setting_temperature := 0.5%float;
            setting_max_new_tokens := Some 6%Z |}
         (Some boolean_regex) 1 None
         (initial_state (E := Scripted.env Scripted.stopped_oracle)
            Scripted.start))
  = Done EmptyString.
Proof.
  rewrite (proj1 (@cancellation_at_end_of_stream
                    (Scripted.env Scripted.stopped_oracle)
                    (Scripted.session Scripted.boolean_schema 10)
                    _ (Some boolean_regex) 1 None
                    (initial_state (E := Scripted.env Scripted.stopped_oracle)
                       Scripted.start)
                    _ _ eq_refl) (Some " ") eq_refl eq_refl).
  reflexivity.
Defined.

(** The flag goes up with the first snapshot and the stream goes on: the
    acquirer keeps consuming and returns the match of the fourth snapshot,
    not the empty string. *)
Lemma flag_not_polled_mid_stream :
  let E := Scripted.env Scripted.interrupted_oracle in
  let stream :=
    generation_func (Env := E) "Describe Ann."
      {| setting_temperature := 0.5%float;
         setting_max_new_tokens := Some 6%Z |} Scripted.start in
  Forall (fun snap => stop_everything (Env := E) (snd snap) = true) (fst stream)
  /\ List.length (fst stream) = 4%nat
  /\ fst (get_next_tokens (E := E) (Scripted.session Scripted.boolean_schema 10)
            {| setting_temperature := 0.5%float;
               setting_max_new_tokens := Some 6%Z |}
            (Some boolean_regex) 1 None (initial_state (E := E) Scripted.start))
     = Done "true".
Proof.
  split; [repeat constructor | split; vm_compute; reflexivity].
Qed.

Lemma last_char_nonempty a t : last_char (String a t) <> None.
Proof.
  revert a. induction t as [ | b t IH]; intros a.
  - discriminate.
  - change (last_char (String a (String b t))) with (last_char (String b t)).
    apply IH.
Qed.

(** C10.  When the emptiness probe returns the empty string, which it does
    whenever the stream of the probe is exhausted without a match while the
    flag is set, [generate_array] raises IndexError at line 231, with the
    buffer as it was; and the last character of the captured text exists
    exactly when that text is not empty. *)
Theorem empty_probe_raises_index_error {E : Env} (self : Jsonformer)
  (gv : json -> option string -> M State unit) (item_schema : json)
  (st : State) :
  (forall st1,
      emptiness_probe self st = (Done EmptyString, st1) ->
      generate_array self gv item_schema st = (Raised IndexError, st1)
      /\ progress st1 = progress st)
  /\ (forall snaps w_end last,
         generation_func (get_prompt self st) (probe_settings self) (world st)
         = (snaps, w_end) ->
         consume (Some array_regex) 1 snaps None = Exhausted last ->
         stop_everything w_end = true ->
         emptiness_probe self st
         = (Done EmptyString,
            with_world w_end
              (log_call (get_prompt self st, probe_settings self) st)))
  /\ (forall chars, last_char chars = None <-> chars = EmptyString).
Proof.
  split; [ | split].
  - intros st1 Hprobe. split.
    + unfold generate_array. rewrite (bind_step _ _ _ Hprobe). reflexivity.
    + apply (get_next_tokens_frame _ _ _ _ _ _ Hprobe).
  - intros snaps w_end last Hstream Hscan Hflag. unfold emptiness_probe.
    rewrite (@get_next_tokens_scan E self (probe_settings self)
               (Some array_regex) 1 None st snaps w_end Hstream).
    cbv zeta. rewrite Hscan, Hflag. reflexivity.
  - intros chars. split.
    + destruct chars as [ | a t]; [reflexivity | ].
      intros H. destruct (last_char_nonempty a t H).
    + intros ->. reflexivity.
Qed.

(** The stream of the probe is cut short by the flag: IndexError. *)
Lemma empty_probe_raises_index_error_witness :
  let E := Scripted.env Scripted.stopped_oracle in
  let self := Scripted.session (Scripted.array_schema Scripted.boolean_schema) 10 in
  fst (generate_array (E := E) self (generate_value self 1)
         Scripted.boolean_schema (initial_state (E := E) Scripted.start))
  = Raised IndexError.
Proof.
  intros E self.
  pose proof (@empty_probe_raises_index_error E self (generate_value self 1)
                Scripted.boolean_schema (initial_state (E := E) Scripted.start))
    as (Hraise & Hprobe & _).
  specialize (Hprobe _ _ (Some " ") eq_refl eq_refl eq_refl).
  rewrite (proj1 (Hraise _ Hprobe)). reflexivity.
Defined.

(** ** The retry policies of the leaf generators *)

Section LeafRetries.

Context {E : Env}.
Variable self : Jsonformer.

Lemma float_or_idem x : float_or (Some x) x = x.
Proof. unfold float_or. destruct (PrimFloat.eqb x 0); reflexivity. Qed.

(** *** Numbers *)

Lemma number_parsed t i st r f st1 :
  get_next_tokens self (number_settings self t) (Some number_regex) 1 None st
  = (Done r, st1) ->
  float_of_str r = Some f ->
  generate_number self t i st = (Done (Number f), st1).
Proof.
  intros Hget Hf. rewrite generate_number_unfold. unfold generate_number_body.
  rewrite (bind_step _ _ _ Hget), Hf. reflexivity.
Qed.

Lemma number_not_parsed t i st r st1 :
  get_next_tokens self (number_settings self t) (Some number_regex) 1 None st
  = (Done r, st1) ->
  float_of_str r = None ->
  stop_everything (world st1) = false ->
  generate_number self t i st
  = if (i >? 3)%Z then (Raised (ValueError InvalidNumber), st1)
    else generate_number self
           (Some (float_or t (temperature self) * escalation)%float)
           (i + 1)%Z st1.
Proof.
  intros Hget Hf Hstop. rewrite generate_number_unfold.
  unfold generate_number_body. fold (number_settings self t).
  rewrite (bind_step _ _ _ Hget), Hf.
  unfold bind, read_stop_everything. rewrite Hstop.
  destruct (i >? 3)%Z; reflexivity.
Qed.

(** An acquisition that fails is not retried: the call of line 115 stands
    outside the [try]. *)
Lemma number_not_acquired t i st e st1 :
  get_next_tokens self (number_settings self t) (Some number_regex) 1 None st
  = (Raised e, st1) ->
  generate_number self t i st = (Raised e, st1).
Proof.
  intros Hget. rewrite generate_number_unfold. unfold generate_number_body.
  unfold bind. rewrite Hget. reflexivity.
Qed.

Section NumberChain.

Hypothesis never_parses :
  forall settings st,
  exists r st1,
    get_next_tokens self settings (Some number_regex) 1 None st = (Done r, st1)
    /\ float_of_str r = None
    /\ stop_everything (world st1) = false.

Lemma number_chain k :
  forall t st,
  exists st',
    generate_number self t (4 - Z.of_nat k) st
    = (Raised (ValueError InvalidNumber), st')
    /\ progress st' = progress st
    /\ calls st'
       = (calls st
          ++ attempts (get_prompt self st) None
               (escalations (temperature self)
                  (float_or t (temperature self)) (S k)))%list.
Proof.
  induction k as [ | k IH]; intros t st;
    destruct (never_parses (number_settings self t) st) as (r & st1 & Hget & Hf & Hs);
    destruct (get_next_tokens_frame _ _ _ _ _ _ Hget) as (Hp & _ & _ & Hc).
  - rewrite (number_not_parsed _ (4 - Z.of_nat 0) _ Hget Hf Hs).
    exists st1. repeat split; assumption.
  - rewrite (number_not_parsed _ (4 - Z.of_nat (S k)) _ Hget Hf Hs).
    assert (Hi : (4 - Z.of_nat (S k) >? 3)%Z = false)
      by (rewrite Z.gtb_ltb; apply Z.ltb_ge; lia).
    rewrite Hi.
    replace (4 - Z.of_nat (S k) + 1)%Z with (4 - Z.of_nat k)%Z by lia.
    destruct (IH (Some (float_or t (temperature self) * escalation)%float) st1)
      as (st' & Hrun & Hp' & Hc').
    exists st'. split; [exact Hrun | split; [congruence | ] ].
    rewrite Hc', Hc, (get_prompt_frame self _ _ Hp), <- app_assoc.
    reflexivity.
Qed.

End NumberChain.

(** *** Booleans *)

Lemma boolean_not_acquired t i st v st1 :
  get_next_tokens self (boolean_settings self t) (Some boolean_regex) 1 None st
  = (Raised (ValueError v), st1) ->
  stop_everything (world st1) = false ->
  generate_boolean self t i st
  = if (i <=? 3)%Z
    then generate_boolean self
           (Some (float_or t (temperature self) * escalation)%float)
           (i + 1)%Z st1
    else (Done (Boolean false), st1).
Proof.
  intros Hget Hstop. rewrite generate_boolean_unfold.
  unfold generate_boolean_body. fold (boolean_settings self t).
  unfold bind at 1.
  rewrite (@try_caught _ _ _ _ st v st1);
    [ | unfold bind; rewrite Hget; reflexivity].
  unfold bind at 1. unfold read_stop_everything. rewrite Hstop.
  destruct (i <=? 3)%Z; [ | reflexivity].
  unfold bind at 1.
  destruct (generate_boolean self _ _ st1) as [[b | e | | ] st2]; reflexivity.
Qed.

Lemma boolean_acquired t i st r st1 :
  get_next_tokens self (boolean_settings self t) (Some boolean_regex) 1 None st
  = (Done r, st1) ->
  (r = "true" \/ r = "1" ->
   generate_boolean self t i st = (Done (Boolean true), st1))
  /\ (r = "false" \/ r = "0" ->
      generate_boolean self t i st = (Done (Boolean false), st1)).
Proof.
  intros Hget. rewrite generate_boolean_unfold.
  unfold generate_boolean_body. fold (boolean_settings self t).
  split; intros Hr.
  - rewrite (@bind_step _ _ _ _ _ st (Some (Boolean true)) st1);
      [reflexivity | ].
    apply try_passed. rewrite (bind_step _ _ _ Hget).
    destruct Hr as [-> | ->]; reflexivity.
  - rewrite (@bind_step _ _ _ _ _ st (Some (Boolean false)) st1);
      [reflexivity | ].
    apply try_passed. rewrite (bind_step _ _ _ Hget).
    destruct Hr as [-> | ->]; reflexivity.
Qed.

(** A stream in which no snapshot matches is never cut by a match. *)
Lemma consume_unmatched (rx : regex) g (snaps : list (string * World)) :
  Forall (fun snap => re_match rx (fst snap) = None) snaps ->
  forall last,
    (exists w, consume (Some rx) g snaps last = Doubled w)
    \/ (exists l, consume (Some rx) g snaps last = Exhausted l).
Proof.
  induction 1 as [ | [response w] rest Hhead _ IH]; intros last; simpl.
  - right. exists last. reflexivity.
  - destruct (re_search double_quote_regex response).
    + left. exists w. reflexivity.
    + simpl in Hhead. rewrite Hhead. apply IH.
Qed.

Section BooleanChain.

Hypothesis never_stopped : forall w, stop_everything w = false.
Hypothesis never_matches :
  forall p settings w,
    Forall (fun snap => re_match boolean_regex (fst snap) = None)
           (fst (generation_func p settings w)).

Lemma boolean_acquisition_fails t st :
  exists v st1,
    get_next_tokens self (boolean_settings self t) (Some boolean_regex) 1 None st
    = (Raised (ValueError v), st1).
Proof.
  unfold get_next_tokens.
  pose proof (never_matches (str_or None (get_prompt self st))
                (boolean_settings self t) (world st)) as Hno.
  destruct (generation_func _ _ _) as [snaps w_end]. simpl in Hno.
  destruct (@consume_unmatched boolean_regex 1 snaps Hno None)
    as [[w Hscan] | [l Hscan]];
    rewrite Hscan.
  - eexists; eexists; reflexivity.
  - rewrite never_stopped. eexists; eexists; reflexivity.
Qed.

Lemma boolean_chain k :
  forall t st,
  exists st',
    generate_boolean self t (4 - Z.of_nat k) st = (Done (Boolean false), st')
    /\ List.length (calls st') = (List.length (calls st) + S k)%nat.
Proof.
  induction k as [ | k IH]; intros t st;
    destruct (boolean_acquisition_fails t st) as (v & st1 & Hget);
    destruct (get_next_tokens_frame _ _ _ _ _ _ Hget) as (_ & _ & _ & Hc).
  - rewrite (boolean_not_acquired _ (4 - Z.of_nat 0) _ Hget (never_stopped _)).
    exists st1. split; [reflexivity | ].
    rewrite Hc, length_app. reflexivity.
  - rewrite (boolean_not_acquired _ (4 - Z.of_nat (S k)) _ Hget
               (never_stopped _)).
    assert (Hi : (4 - Z.of_nat (S k) <=? 3)%Z = true) by (apply Z.leb_le; lia).
    rewrite Hi.
    replace (4 - Z.of_nat (S k) + 1)%Z with (4 - Z.of_nat k)%Z by lia.
    destruct (IH (Some (float_or t (temperature self) * escalation)%float) st1)
      as (st' & Hrun & Hlen).
    exists st'. split; [exact Hrun | ].
    rewrite Hlen, Hc, length_app. simpl. lia.
Qed.

End BooleanChain.

(** *** Strings *)

Lemma string_not_acquired t i st v st1 :
  get_next_tokens self (string_settings self t) (Some string_regex) 1 None st
  = (Raised (ValueError v), st1) ->
  stop_everything (world st1) = false ->
  generate_string self t i st
  = if (i <? 2)%Z
    then generate_string self
           (Some (float_or t (temperature self * escalation)%float))
           (i + 1)%Z st1
    else if (i <? 4)%Z then (Done (chr dq), st1)
    else (Raised (ValueError v), st1).
Proof.
  intros Hget Hstop. rewrite generate_string_unfold.
  unfold generate_string_body. fold (string_settings self t).
  rewrite (try_caught _ _ _ Hget).
  unfold bind, read_stop_everything. rewrite Hstop.
  destruct (i <? 2)%Z; [reflexivity | ].
  destruct (i <? 4)%Z; reflexivity.
Qed.

Lemma string_acquired t i st r st1 :
  get_next_tokens self (string_settings self t) (Some string_regex) 1 None st
  = (Done r, st1) ->
  generate_string self t i st = (Done r, st1).
Proof.
  intros Hget. rewrite generate_string_unfold.
  unfold generate_string_body. fold (string_settings self t).
  apply (try_passed _ _ _ Hget).
Qed.

End LeafRetries.

(** C4, as amended.  When every acquisition of [generate_number] returns a
    text that is no number, and the flag stays down, the generator makes
    five attempts, the first and four retries, each retry at the
    temperature of the attempt before multiplied by the escalation factor,
    and the fifth failure raises the ValueError of line 126: nothing is
    returned in its place. *)
Theorem number_retries_then_fails {E : Env} (self : Jsonformer)
  (never_parses :
     forall settings st,
     exists r st1,
       get_next_tokens self settings (Some number_regex) 1 None st
       = (Done r, st1)
       /\ float_of_str r = None
       /\ stop_everything (world st1) = false)
  (st : State) :
  exists st',
    generate_number self None 0 st = (Raised (ValueError InvalidNumber), st')
    /\ calls st'
       = (calls st
          ++ attempts (get_prompt self st) None
               (escalations (temperature self) (temperature self) 5))%list.
Proof.
  destruct (number_chain self never_parses 4 None st) as (st' & Hrun & _ & Hc).
  exists st'. split; assumption.
Qed.

(** Noise at every attempt: five calls, then the error. *)
Lemma number_retries_then_fails_witness :
  let E := Scripted.quiet_env Scripted.noise_oracle in
  let self := Scripted.session Scripted.number_schema 10 in
  exists st',
    generate_number (E := E) self None 0 (initial_state (E := E) Scripted.start)
    = (Raised (ValueError InvalidNumber), st')
    /\ List.length (calls st') = 5%nat.
Proof.
  intros E self.
  assert (never_parses :
            forall settings (st : @State E),
            exists r st1,
              get_next_tokens self settings (Some number_regex) 1 None st
              = (Done r, st1)
              /\ float_of_str r = None
              /\ stop_everything (world st1) = false).
  { intros settings st. eexists. eexists.
    split; [reflexivity | split; reflexivity]. }
  destruct (number_retries_then_fails self never_parses
              (initial_state (E := E) Scripted.start)) as (st' & Hrun & Hc).
  exists st'. split; [exact Hrun | rewrite Hc; reflexivity].
Defined.

(** Four texts that are no number, then 42: the fifth attempt, the fourth
    retry, is made and its value returned. *)
Lemma number_fifth_attempt_succeeds :
  let E := Scripted.env (Scripted.late_oracle 4 "42,") in
  let run :=
    generate_number (E := E) (Scripted.session Scripted.number_schema 10)
      None 0 (initial_state (E := E) Scripted.start) in
  fst run = Done (Number 42%float)
  /\ List.length (calls (snd run)) = 5%nat.
Proof. split; vm_compute; reflexivity. Qed.

(** C5, as amended.  When every acquisition of [generate_string] fails and
    the flag stays down, the generator makes three attempts: the first at
    the session temperature, the two retries at the session temperature
    multiplied by the escalation factor.  The third failure is not raised:
    the generator returns a string in its place, the one of line 178.  An
    acquisition error is passed on to the caller only by a call entered
    with [iterations] at 4 or more, which the chain that starts at 0 never
    makes. *)
Theorem string_retries_then_degrades {E : Env} (self : Jsonformer)
  (never_closes :
     forall settings st,
     exists v st1,
       get_next_tokens self settings (Some string_regex) 1 None st
       = (Raised (ValueError v), st1)
       /\ stop_everything (world st1) = false) :
  (forall st,
   exists st',
     generate_string self None 0 st = (Done (chr dq), st')
     /\ calls st'
        = (calls st
           ++ attempts (get_prompt self st) None
                (let raised :=
                   float_or (Some (temperature self * escalation)%float)
                            (temperature self) in
                 [temperature self; raised; raised]))%list)
  /\ (forall t i st,
         (4 <= i)%Z ->
         exists v st',
           generate_string self t i st = (Raised (ValueError v), st')).
Proof.
  split.
  - intros st.
    destruct (never_closes (string_settings self None) st)
      as (v0 & st1 & Hget0 & Hs0).
    destruct (never_closes
                (string_settings self
                   (Some (temperature self * escalation)%float)) st1)
      as (v1 & st2 & Hget1 & Hs1).
    destruct (never_closes
                (string_settings self
                   (Some (temperature self * escalation)%float)) st2)
      as (v2 & st3 & Hget2 & Hs2).
    destruct (get_next_tokens_frame _ _ _ _ _ _ Hget0) as (Hp0 & _ & _ & Hc0).
    destruct (get_next_tokens_frame _ _ _ _ _ _ Hget1) as (Hp1 & _ & _ & Hc1).
    destruct (get_next_tokens_frame _ _ _ _ _ _ Hget2) as (Hp2 & _ & _ & Hc2).
    exists st3. split.
    + rewrite (string_not_acquired self None 0 st Hget0 Hs0).
      cbn [Z.ltb Z.compare Z.add Pos.compare Pos.compare_cont float_or].
      rewrite (string_not_acquired self _ 1 st1 Hget1 Hs1).
      cbn [Z.ltb Z.compare Z.add Pos.compare Pos.compare_cont Pos.add].
      rewrite float_or_idem.
      rewrite (string_not_acquired self _ 2 st2 Hget2 Hs2).
      reflexivity.
    + rewrite Hc2, Hc1, Hc0.
      cbn [str_or]. rewrite (get_prompt_frame self _ _ Hp1).
      rewrite (get_prompt_frame self _ _ Hp0).
      rewrite <- !app_assoc. reflexivity.
  - intros t i st Hi.
    destruct (never_closes (string_settings self t) st) as (v & st1 & Hget & Hs).
    exists v, st1. rewrite (string_not_acquired self t i st Hget Hs).
    assert (H2 : (i <? 2)%Z = false) by (apply Z.ltb_ge; lia).
    assert (H4 : (i <? 4)%Z = false) by (apply Z.ltb_ge; lia).
    rewrite H2, H4. reflexivity.
Qed.

(** Noise at every attempt: three calls, and a string is returned. *)
Lemma string_retries_then_degrades_witness :
  let E := Scripted.quiet_env Scripted.noise_oracle in
  let self := Scripted.session Scripted.string_schema 10 in
  exists st',
    generate_string (E := E) self None 0 (initial_state (E := E) Scripted.start)
    = (Done (chr dq), st')
    /\ List.length (calls st') = 3%nat.
Proof.
  intros E self.
  assert (never_closes :
            forall settings (st : @State E),
            exists v st1,
              get_next_tokens self settings (Some string_regex) 1 None st
              = (Raised (ValueError v), st1)
              /\ stop_everything (world st1) = false).
  { intros settings st. eexists. eexists. split; reflexivity. }
  destruct (proj1 (string_retries_then_degrades self never_closes)
              (initial_state (E := E) Scripted.start)) as (st' & Hrun & Hc).
  exists st'. split; [exact Hrun | rewrite Hc; reflexivity].
Defined.

(** Two streams without a closing quote, then one that closes after the
    letters ok: the second failure is followed by a third attempt, whose
    text is returned. *)
Lemma string_third_attempt_succeeds :
  let E := Scripted.env (Scripted.late_oracle 2 ("ok" ++ chr dq)) in
  let run :=
    generate_string (E := E) (Scripted.session Scripted.string_schema 10)
      None 0 (initial_state (E := E) Scripted.start) in
  fst run = Done "ok"
  /\ List.length (calls (snd run)) = 3%nat.
Proof. split; vm_compute; reflexivity. Qed.

(** C6.  With the flag never set: an oracle output that is true or 1 makes
    [generate_boolean] return true, one that is false or 0 makes it return
    false, and so does any stream from which the acquirer captures one of
    these four texts; and with an oracle none of whose snapshots ever
    matches the boolean pattern, [generate_boolean] makes its five attempts
    and returns false, raising nothing. *)
Theorem boolean_generation {E : Env} (self : Jsonformer)
  (never_stopped : forall w, stop_everything w = false) :
  (forall t i st r st1,
      get_next_tokens self (boolean_settings self t) (Some boolean_regex) 1
        None st
      = (Done r, st1) ->
      (r = "true" \/ r = "1" ->
       generate_boolean self t i st = (Done (Boolean true), st1))
      /\ (r = "false" \/ r = "0" ->
          generate_boolean self t i st = (Done (Boolean false), st1)))
  /\ (forall t i st out w1 rest w2,
      generation_func (get_prompt self st) (boolean_settings self t) (world st)
      = ((out, w1) :: rest, w2) ->
      (out = "true" \/ out = "1" ->
       fst (generate_boolean self t i st) = Done (Boolean true))
      /\ (out = "false" \/ out = "0" ->
          fst (generate_boolean self t i st) = Done (Boolean false)))
  /\ ((forall p settings w,
          Forall (fun snap => re_match boolean_regex (fst snap) = None)
                 (fst (generation_func p settings w))) ->
      forall st,
      exists st',
        generate_boolean self None 0 st = (Done (Boolean false), st')
        /\ List.length (calls st') = (List.length (calls st) + 5)%nat).
Proof.
  split; [ | split].
  - intros t i st r st1 Hget. exact (boolean_acquired self t i st Hget).
  - intros t i st out w1 rest w2 Hstream.
    pose proof (@get_next_tokens_scan E self (boolean_settings self t)
                  (Some boolean_regex) 1 None st _ _ Hstream) as Hget.
    cbv zeta in Hget.
    split; intros [-> | ->];
      match type of Hget with
      | _ = match ?scan with _ => _ end =>
          let v := eval lazy in scan in change scan with v in Hget
      end;
      cbv iota beta in Hget;
      destruct (boolean_acquired self t i st Hget) as [Htrue Hfalse];
      first [ rewrite Htrue by auto | rewrite Hfalse by auto ]; reflexivity.
  - intros never_matches st.
    apply (boolean_chain self never_stopped never_matches 4 None st).
Qed.

(** An oracle that says true, and one that only spells noise. *)
Lemma boolean_generation_witness :
  let self := Scripted.session Scripted.boolean_schema 10 in
  fst (generate_boolean (E := Scripted.quiet_env (Scripted.say_oracle "true"))
         self None 0
         (initial_state (E := Scripted.quiet_env (Scripted.say_oracle "true"))
            Scripted.start))
  = Done (Boolean true)
  /\ exists st',
       generate_boolean (E := Scripted.quiet_env Scripted.noise_oracle)
         self None 0
         (initial_state (E := Scripted.quiet_env Scripted.noise_oracle)
            Scripted.start)
       = (Done (Boolean false), st').
Proof.
  intros self. split.
  - apply (proj1 (proj2 (boolean_generation
                           (E := Scripted.quiet_env (Scripted.say_oracle "true"))
                           self (fun _ => eq_refl)))
             None 0%Z _ "true" _ [] _ eq_refl).
    left. reflexivity.
  - destruct (proj2 (proj2 (boolean_generation
                       (E := Scripted.quiet_env Scripted.noise_oracle)
                       self (fun _ => eq_refl)))
                (fun _ _ _ => ltac:(repeat constructor))
                (initial_state (E := Scripted.quiet_env Scripted.noise_oracle)
                   Scripted.start)) as (st' & Hrun & _).
    exists st'. exact Hrun.
Defined.

(** ** Validation and the entry point *)

(** C8.  [custom_generate_reply] never calls [validate_schema]: the schema
    it reads from the state goes to the session as it is.  On a schema that
    [validate_schema] refuses for the type of its second property, the
    session calls the oracle for the first property, and only then stops on
    the ValueError of line 291, the buffer half written. *)
Theorem unvalidated_schema_reaches_oracle :
  validate_schema (S (json_depth Scripted.tuple_schema)) Scripted.tuple_schema
  = Raised (ValueError (InvalidType (JStr "tuple")
                          (JObj [("type", JStr "tuple")])))
  /\ exists st,
       custom_generate_reply (E := Scripted.env Scripted.ann_oracle)
         true true true (Some Scripted.tuple_schema) "Describe Ann."
         0.5%float Scripted.start
       = Constrained (Raised (ValueError (UnsupportedType (JStr "tuple"))), st)
       /\ List.length (calls st) = 1%nat
       /\ progress st
          = "{" ++ chr nl ++ "    " ++ chr dq ++ "name" ++ chr dq ++ ": "
            ++ chr dq ++ "Ann" ++ chr dq ++ "," ++ chr nl
            ++ "    " ++ chr dq ++ "age" ++ chr dq ++ ": ".
Proof.
  split; [vm_compute; reflexivity | ].
  pose (run := call (E := Scripted.env Scripted.ann_oracle)
                 (Scripted.session Scripted.tuple_schema 10)
                 (Scripted.stop false Scripted.start)).
  assert (Hfst : fst run = Raised (ValueError (UnsupportedType (JStr "tuple"))))
    by (vm_compute; reflexivity).
  exists (snd run). split; [ | split].
  - change (Constrained run
            = Constrained (Raised (ValueError (UnsupportedType (JStr "tuple"))),
                           snd run)).
    rewrite <- Hfst. rewrite <- surjective_pairing. reflexivity.
  - vm_compute. reflexivity.
  - vm_compute. reflexivity.
Qed.

(** * Further properties *)

(** ** How the leaf generators end *)

Section LeafOutcomes.

Context {E : Env}.
Variable self : Jsonformer.

Lemma bind_raised {A B : Type} (m : M State A) (f : A -> M State B) st e st1 :
  m st = (Raised e, st1) -> bind m f st = (Raised e, st1).
Proof. unfold bind. intros ->. reflexivity. Qed.

(** One acquisition: one call, and an outcome that depends on whether a
    stopping pattern was given. *)
Lemma acquire_cases settings rx g ov st :
  exists r st',
    get_next_tokens self settings rx g ov st = (r, st')
    /\ untouched st st' [(str_or ov (get_prompt self st), settings)]
    /\ ((exists text, r = Done text)
        \/ r = Raised (ValueError DoubledQuote)
        \/ (r = Raised (ValueError NoMatch) /\ rx <> None)
        \/ (r = Raised UnboundLocalError /\ rx = None)).
Proof.
  destruct (get_next_tokens self settings rx g ov st) as [r st'] eqn:Hget.
  exists r, st'. split; [reflexivity | ]. split.
  - exact (get_next_tokens_frame _ _ _ _ _ _ Hget).
  - unfold get_next_tokens in Hget.
    destruct (generation_func _ _ _) as [snaps w_end].
    destruct (consume rx g snaps None) as [text w | w | last].
    + inversion Hget. left. eauto.
    + inversion Hget. auto.
    + destruct (stop_everything w_end); [inversion Hget; left; eauto | ].
      destruct rx as [rx' | ]; [ | destruct last as [response | ] ];
        inversion Hget.
      * right. right. left. split; [reflexivity | discriminate].
      * left. eauto.
      * right. right. right. auto.
Qed.

Lemma untouched_step st st1 st' c new :
  untouched st st1 [c] -> untouched st1 st' new -> untouched st st' (c :: new).
Proof.
  intros (Hp & Hi & Hy & Hc) (Hp' & Hi' & Hy' & Hc').
  repeat split; try congruence.
  rewrite Hc', Hc, <- app_assoc. reflexivity.
Qed.

(** [generate_number], entered with any count. *)
Lemma generate_number_spec n :
  forall t i st,
    (Z.to_nat (4 - i) < n)%nat ->
    exists r st' new,
      generate_number self t i st = (r, st')
      /\ untouched st st' new
      /\ (1 <= List.length new <= S (Z.to_nat (4 - i)))%nat
      /\ Forall (fun c => fst c = get_prompt self st
                          /\ setting_max_new_tokens (snd c) = None) new
      /\ ((exists f, r = Done (Number f))
          \/ (r = Done NoNumber /\ stop_everything (world st') = true)
          \/ (exists e, r = Raised e /\ acquisition_error e)
          \/ (r = Raised (ValueError InvalidNumber)
              /\ List.length new = S (Z.to_nat (4 - i)))).
Proof.
  induction n as [ | n IH]; intros t i st Hn; [lia | ].
  destruct (acquire_cases (number_settings self t) (Some number_regex) 1 None st)
    as (r0 & st1 & Hget & Hframe & Hcases).
  assert (Hone : Forall (fun c => fst c = get_prompt self st
                                  /\ setting_max_new_tokens (snd c) = None)
                   [(str_or None (get_prompt self st), number_settings self t)])
    by (repeat constructor).
  rewrite generate_number_unfold. unfold generate_number_body.
  destruct Hcases as [[text ->] | [-> | [[-> _] | [_ Hnone] ] ] ];
    [ | | | discriminate].
  - rewrite (bind_step _ _ _ Hget).
    destruct (float_of_str text) as [f | ].
    { exists (Done (Number f)), st1, [(str_or None (get_prompt self st),
                                       number_settings self t)].
      repeat split; try apply Hframe; cbn [List.length]; try lia; eauto. }
    unfold bind at 1. unfold read_stop_everything.
    destruct (stop_everything (world st1)) eqn:Hstop.
    { exists (Done NoNumber), st1, [(str_or None (get_prompt self st),
                                    number_settings self t)].
      repeat split; try apply Hframe; cbn [List.length]; try lia; auto. }
    destruct (i >? 3)%Z eqn:Hi.
    { rewrite Z.gtb_ltb in Hi. apply Z.ltb_lt in Hi.
      exists (Raised (ValueError InvalidNumber)), st1,
        [(str_or None (get_prompt self st), number_settings self t)].
      repeat split; try apply Hframe; cbn [List.length]; try lia; auto.
      right. right. right. split; [reflexivity | cbn [List.length]; lia]. }
    rewrite Z.gtb_ltb in Hi. apply Z.ltb_ge in Hi.
    destruct (IH (Some (float_or t (temperature self) * escalation)%float)
                (i + 1)%Z st1 ltac:(lia))
      as (r & st' & new & Hrun & Hframe' & Hlen & Hall & Hout).
    exists r, st', ((str_or None (get_prompt self st), number_settings self t)
                    :: new).
    split; [exact Hrun | ]. split; [exact (untouched_step Hframe Hframe') | ].
    split; [cbn [List.length]; lia | ]. split.
    { constructor; [split; reflexivity | ].
      rewrite (get_prompt_frame self st st1 (proj1 Hframe)) in Hall.
      exact Hall. }
    destruct Hout as [Hout | [Hout | [Hout | [Hout Hcount] ] ] ]; auto.
    right. right. right. split; [exact Hout | cbn [List.length]; lia].
  - rewrite (bind_raised _ _ _ Hget).
    exists (Raised (ValueError DoubledQuote)), st1,
      [(str_or None (get_prompt self st), number_settings self t)].
    repeat split; try apply Hframe; cbn [List.length]; try lia; auto.
    right. right. left. eexists. split; [reflexivity | left; reflexivity].
  - rewrite (bind_raised _ _ _ Hget).
    exists (Raised (ValueError NoMatch)), st1,
      [(str_or None (get_prompt self st), number_settings self t)].
    repeat split; try apply Hframe; cbn [List.length]; try lia; auto.
    right. right. left. eexists. split; [reflexivity | right; reflexivity].
Qed.

(** [generate_boolean] and [generate_string] by the outcome of their
    acquisition. *)
Lemma generate_boolean_cases t i st r0 st1 :
  get_next_tokens self (boolean_settings self t) (Some boolean_regex) 1 None st
  = (r0, st1) ->
  let again :=
    generate_boolean self
      (Some (float_or t (temperature self) * escalation)%float) (i + 1)%Z st1 in
  generate_boolean self t i st
  = match r0 with
    | Done text =>
        if String.eqb text "true" || String.eqb text "1"
        then (Done (Boolean true), st1)
        else if String.eqb text "false" || String.eqb text "0"
        then (Done (Boolean false), st1)
        else if (i <=? 3)%Z then again else (Done (Boolean false), st1)
    | Raised (ValueError _) =>
        if stop_everything (world st1) then (Done NoBoolean, st1)
        else if (i <=? 3)%Z then again else (Done (Boolean false), st1)
    | Raised e => (Raised e, st1)
    | Halted => (Halted, st1)
    | OutOfFuel => (OutOfFuel, st1)
    end.
Proof.
  intros Hget again. rewrite generate_boolean_unfold.
  unfold generate_boolean_body, bind, try_value_error, read_stop_everything,
    ret.
  rewrite Hget. subst again.
  destruct r0 as [text | [v | | | | | ] | | ]; try reflexivity.
  - destruct (_ || _); [reflexivity | ].
    destruct (_ || _); [reflexivity | ].
    destruct (i <=? 3)%Z; reflexivity.
  - destruct (stop_everything (world st1)); [reflexivity | ].
    destruct (i <=? 3)%Z; [ | reflexivity].
    destruct (generate_boolean self _ _ st1) as [[b | e | | ] st2]; reflexivity.
Qed.

Lemma generate_string_cases t i st r0 st1 :
  get_next_tokens self (string_settings self t) (Some string_regex) 1 None st
  = (r0, st1) ->
  generate_string self t i st
  = match r0 with
    | Raised (ValueError v) =>
        if stop_everything (world st1) then (Done EmptyString, st1)
        else if (i <? 2)%Z
        then generate_string self
               (Some (float_or t (temperature self * escalation)%float))
               (i + 1)%Z st1
        else if (i <? 4)%Z then (Done (chr dq), st1)
        else (Raised (ValueError v), st1)
    | r => (r, st1)
    end.
Proof.
  intros Hget. rewrite generate_string_unfold.
  unfold generate_string_body, bind, try_value_error, read_stop_everything,
    ret.
  rewrite Hget.
  destruct r0 as [text | [v | | | | | ] | | ]; try reflexivity.
  destruct (stop_everything (world st1)); [reflexivity | ].
  destruct (i <? 2)%Z; [reflexivity | ].
  destruct (i <? 4)%Z; reflexivity.
Qed.

(** [generate_boolean], entered with any count. *)
Lemma generate_boolean_spec n :
  forall t i st,
    (Z.to_nat (4 - i) < n)%nat ->
    exists v st' new,
      generate_boolean self t i st = (Done v, st')
      /\ untouched st st' new
      /\ (1 <= List.length new <= S (Z.to_nat (4 - i)))%nat
      /\ Forall (fun c => fst c = get_prompt self st
                          /\ setting_max_new_tokens (snd c) = Some 6%Z) new
      /\ (v = NoBoolean -> stop_everything (world st') = true).
Proof.
  induction n as [ | n IH]; intros t i st Hn; [lia | ].
  destruct (acquire_cases (boolean_settings self t) (Some boolean_regex) 1
              None st) as (r0 & st1 & Hget & Hframe & Hcases).
  rewrite (generate_boolean_cases t i st Hget). cbv zeta.
  assert (Hend : forall v,
             (v = NoBoolean -> stop_everything (world st1) = true) ->
             exists v' st' new,
               (Done v, st1) = (Done v', st')
               /\ untouched st st' new
               /\ (1 <= List.length new <= S (Z.to_nat (4 - i)))%nat
               /\ Forall (fun c => fst c = get_prompt self st
                                   /\ setting_max_new_tokens (snd c)
                                      = Some 6%Z) new
               /\ (v' = NoBoolean -> stop_everything (world st') = true)).
  { intros v Hv. exists v, st1, [(str_or None (get_prompt self st),
                                  boolean_settings self t)].
    split; [reflexivity | ]. split; [exact Hframe | ].
    split; [cbn [List.length]; lia | ].
    split; [repeat constructor | exact Hv]. }
  assert (Hgo : (i <=? 3)%Z = true ->
                exists v st' new,
                  generate_boolean self
                    (Some (float_or t (temperature self) * escalation)%float)
                    (i + 1)%Z st1 = (Done v, st')
                  /\ untouched st st' new
                  /\ (1 <= List.length new <= S (Z.to_nat (4 - i)))%nat
                  /\ Forall (fun c => fst c = get_prompt self st
                                      /\ setting_max_new_tokens (snd c)
                                         = Some 6%Z) new
                  /\ (v = NoBoolean -> stop_everything (world st') = true)).
  { intros Hi. apply Z.leb_le in Hi.
    destruct (IH (Some (float_or t (temperature self) * escalation)%float)
                (i + 1)%Z st1 ltac:(lia))
      as (v & st' & new & Hrun & Hframe' & Hlen & Hall & Hout).
    exists v, st', ((str_or None (get_prompt self st), boolean_settings self t)
                    :: new).
    split; [exact Hrun | ].
    split; [exact (untouched_step Hframe Hframe') | ].
    split; [cbn [List.length]; lia | ]. split; [ | exact Hout].
    constructor; [split; reflexivity | ].
    rewrite (get_prompt_frame self st st1 (proj1 Hframe)) in Hall. exact Hall. }
  assert (Hcaught :
            exists v st' new,
              (if stop_everything (world st1) then (Done NoBoolean, st1)
               else if (i <=? 3)%Z
               then generate_boolean self
                      (Some (float_or t (temperature self) * escalation)%float)
                      (i + 1)%Z st1
               else (Done (Boolean false), st1)) = (Done v, st')
              /\ untouched st st' new
              /\ (1 <= List.length new <= S (Z.to_nat (4 - i)))%nat
              /\ Forall (fun c => fst c = get_prompt self st
                                  /\ setting_max_new_tokens (snd c)
                                     = Some 6%Z) new
              /\ (v = NoBoolean -> stop_everything (world st') = true)).
  { destruct (stop_everything (world st1)) eqn:Hflag;
      [apply Hend; intros _; first [exact Hflag | reflexivity] | ].
    destruct (i <=? 3)%Z; [apply Hgo; reflexivity | apply Hend; discriminate]. }
  destruct Hcases as [[text ->] | [-> | [[-> _] | [_ Hnone] ] ] ];
    [ | exact Hcaught | exact Hcaught | discriminate].
  destruct (_ || _); [apply Hend; discriminate | ].
  destruct (_ || _); [apply Hend; discriminate | ].
  destruct (i <=? 3)%Z; [apply Hgo; reflexivity | apply Hend; discriminate].
Qed.

(** [generate_string], entered with any count. *)
Lemma generate_string_spec n :
  forall t i st,
    (Z.to_nat (2 - i) < n)%nat ->
    exists r st' new,
      generate_string self t i st = (r, st')
      /\ untouched st st' new
      /\ (1 <= List.length new <= S (Z.to_nat (2 - i)))%nat
      /\ Forall (fun c => fst c = get_prompt self st
                          /\ setting_max_new_tokens (snd c) = None) new
      /\ ((exists text, r = Done text)
          \/ ((4 <= i)%Z /\ exists e, r = Raised e /\ acquisition_error e)).
Proof.
  induction n as [ | n IH]; intros t i st Hn; [lia | ].
  destruct (acquire_cases (string_settings self t) (Some string_regex) 1
              None st) as (r0 & st1 & Hget & Hframe & Hcases).
  rewrite (generate_string_cases t i st Hget).
  assert (Hend : forall r : outcome string,
             ((exists text, r = Done text)
              \/ ((4 <= i)%Z /\ exists e, r = Raised e /\ acquisition_error e)) ->
             exists r' st' new,
               (r, st1) = (r', st')
               /\ untouched st st' new
               /\ (1 <= List.length new <= S (Z.to_nat (2 - i)))%nat
               /\ Forall (fun c => fst c = get_prompt self st
                                   /\ setting_max_new_tokens (snd c) = None)
                         new
               /\ ((exists text, r' = Done text)
                   \/ ((4 <= i)%Z
                       /\ exists e, r' = Raised e /\ acquisition_error e))).
  { intros r Hr. exists r, st1, [(str_or None (get_prompt self st),
                                  string_settings self t)].
    split; [reflexivity | ]. split; [exact Hframe | ].
    split; [cbn [List.length]; lia | ].
    split; [repeat constructor | exact Hr]. }
  assert (Hcaught : forall v,
             acquisition_error (ValueError v) ->
             exists r' st' new,
               (if stop_everything (world st1) then (Done EmptyString, st1)
                else if (i <? 2)%Z
                then generate_string self
                       (Some (float_or t (temperature self * escalation)%float))
                       (i + 1)%Z st1
                else if (i <? 4)%Z then (Done (chr dq), st1)
                else (Raised (ValueError v), st1))
               = (r', st')
               /\ untouched st st' new
               /\ (1 <= List.length new <= S (Z.to_nat (2 - i)))%nat
               /\ Forall (fun c => fst c = get_prompt self st
                                   /\ setting_max_new_tokens (snd c) = None)
                         new
               /\ ((exists text, r' = Done text)
                   \/ ((4 <= i)%Z
                       /\ exists e, r' = Raised e /\ acquisition_error e))).
  { intros v Hv.
    destruct (stop_everything (world st1)); [apply Hend; left; eauto | ].
    destruct (i <? 2)%Z eqn:Hi2.
    - apply Z.ltb_lt in Hi2.
      destruct (IH (Some (float_or t (temperature self * escalation)%float))
                  (i + 1)%Z st1 ltac:(lia))
        as (r & st' & new & Hrun & Hframe' & Hlen & Hall & Hout).
      exists r, st', ((str_or None (get_prompt self st),
                       string_settings self t) :: new).
      split; [exact Hrun | ].
      split; [exact (untouched_step Hframe Hframe') | ].
      split; [cbn [List.length]; lia | ]. split.
      + constructor; [split; reflexivity | ].
        rewrite (get_prompt_frame self st st1 (proj1 Hframe)) in Hall.
        exact Hall.
      + destruct Hout as [Hout | [Hge _] ]; [left; exact Hout | lia].
    - destruct (i <? 4)%Z eqn:Hi4; [apply Hend; left; eauto | ].
      apply Z.ltb_ge in Hi4. apply Hend. right. split; [exact Hi4 | eauto]. }
  destruct Hcases as [[text ->] | [-> | [[-> _] | [_ Hnone] ] ] ];
    [ | | | discriminate].
  - apply Hend. left. eauto.
  - apply Hcaught. left. reflexivity.
  - apply Hcaught. right. reflexivity.
Qed.

End LeafOutcomes.

(** X4.  How [generate_number] ends, entered with any temperature and any
    count.  It makes at least one call and at most one more than the
    retries its counter leaves, all with the prompt of the session and no
    token limit, and touches nothing else.  It returns a float; or the
    empty string, and then the flag is up; or an acquisition error passes
    through it, since the acquisition of line 115 stands outside the [try];
    or it raises the ValueError of line 126, and then it has used every
    retry. *)
Theorem number_outcomes {E : Env} (self : Jsonformer) (t : option float)
  (i : Z) (st : State) :
  exists r st' new,
    generate_number self t i st = (r, st')
    /\ untouched st st' new
    /\ (1 <= List.length new <= S (Z.to_nat (4 - i)))%nat
    /\ Forall (fun c => fst c = get_prompt self st
                        /\ setting_max_new_tokens (snd c) = None) new
    /\ ((exists f, r = Done (Number f))
        \/ (r = Done NoNumber /\ stop_everything (world st') = true)
        \/ (exists e, r = Raised e /\ acquisition_error e)
        \/ (r = Raised (ValueError InvalidNumber)
            /\ List.length new = S (Z.to_nat (4 - i)))).
Proof. apply generate_number_spec with (n := S (Z.to_nat (4 - i))). lia. Qed.

(** X5.  [generate_boolean] never raises, whatever the generation function
    answers and whatever count it is entered with: both acquisition errors
    are caught at line 144, and once the retries are used the answer is
    [False].  It returns the empty string only with the flag up.  Its
    calls, at most one more than the retries left, carry the prompt of the
    session and a limit of six tokens. *)
Theorem boolean_always_returns {E : Env} (self : Jsonformer)
  (t : option float) (i : Z) (st : State) :
  exists v st' new,
    generate_boolean self t i st = (Done v, st')
    /\ untouched st st' new
    /\ (1 <= List.length new <= S (Z.to_nat (4 - i)))%nat
    /\ Forall (fun c => fst c = get_prompt self st
                        /\ setting_max_new_tokens (snd c) = Some 6%Z) new
    /\ (v = NoBoolean -> stop_everything (world st') = true).
Proof. apply generate_boolean_spec with (n := S (Z.to_nat (4 - i))). lia. Qed.

(** X6.  [generate_string] returns a text unless it is entered with a count
    of four or more: only then does the bare [raise] of line 179 pass an
    acquisition error on.  The chain that [generate_value] starts at zero
    therefore always returns, after at most three calls. *)
Theorem string_outcomes {E : Env} (self : Jsonformer) (t : option float)
  (i : Z) (st : State) :
  exists r st' new,
    generate_string self t i st = (r, st')
    /\ untouched st st' new
    /\ (1 <= List.length new <= S (Z.to_nat (2 - i)))%nat
    /\ Forall (fun c => fst c = get_prompt self st
                        /\ setting_max_new_tokens (snd c) = None) new
    /\ ((exists text, r = Done text)
        \/ ((4 <= i)%Z /\ exists e, r = Raised e /\ acquisition_error e)).
Proof. apply generate_string_spec with (n := S (Z.to_nat (2 - i))). lia. Qed.

(** ** Rules of the traversal

    A rule that holds of every step holds of the traversal. *)

Section Rule.

Context {E : Env}.
Variable self : Jsonformer.
Variable P : rule.
Hypothesis P_grounded : grounded self P.

Lemma obeys_ret {A : Type} (a : A) : obeys P (ret a).
Proof.
  intros st r st' H. inversion H. subst.
  apply (chained_refl (grounded_chained P_grounded)).
Qed.

Lemma obeys_bind {A B : Type} (m : M State A) (f : A -> M State B) :
  obeys P m -> (forall a, obeys P (f a)) -> obeys P (bind m f).
Proof.
  intros Hm Hf st r st'. unfold bind.
  destruct (m st) as [[a | e | | ] st1] eqn:Hrun; intros H.
  - apply (chained_trans (grounded_chained P_grounded)) with (st1 := st1).
    + exact (Hm _ _ _ Hrun).
    + exact (Hf a _ _ _ H).
  - inversion H. subst. exact (Hm _ _ _ Hrun).
  - inversion H. subst. exact (Hm _ _ _ Hrun).
  - inversion H. subst. exact (Hm _ _ _ Hrun).
Qed.

Lemma obeys_ext {A : Type} (m m' : M State A) :
  (forall st, m' st = m st) -> obeys P m -> obeys P m'.
Proof. intros Heq Hm st r st' H. rewrite Heq in H. exact (Hm _ _ _ H). Qed.

Lemma obeys_apply_indent : obeys P apply_indent.
Proof. intros st r st' H. exact (grounded_add P_grounded _ _ H). Qed.

Lemma obeys_apply_newline : obeys P apply_newline.
Proof. apply (grounded_add P_grounded). Qed.

Lemma obeys_apply_key key : obeys P (apply_key key).
Proof.
  apply obeys_bind; [apply obeys_apply_indent | intros _].
  apply (grounded_add P_grounded).
Qed.

Section CompositeRule.

Variable gv : json -> option string -> M State unit.

Lemma obeys_generate_object_loop properties :
  (forall k v, In (k, v) properties -> obeys P (gv v (Some k))) ->
  obeys P (generate_object_loop gv properties).
Proof.
  induction properties as [ | [key schema] rest IH]; intros Hgv;
    cbn [generate_object_loop].
  - apply obeys_ret.
  - apply obeys_bind; [apply obeys_apply_newline | intros _].
    apply obeys_bind; [apply Hgv; left; reflexivity | intros _].
    apply obeys_bind; [ | intros _].
    + destruct rest; [apply obeys_ret | apply (grounded_add P_grounded)].
    + apply IH. intros k v Hin. apply Hgv. right. exact Hin.
Qed.

Lemma obeys_generate_object properties :
  (forall k v, In (k, v) properties -> obeys P (gv v (Some k))) ->
  obeys P (generate_object gv (JObj properties)).
Proof.
  intros Hgv. unfold generate_object.
  apply obeys_bind; [apply (grounded_add P_grounded) | intros _].
  destruct properties as [ | p ps]; [apply (grounded_add P_grounded) | ].
  apply obeys_bind; [apply (grounded_increase P_grounded) | intros _].
  apply obeys_bind; [apply obeys_generate_object_loop; exact Hgv | intros _].
  apply obeys_bind; [apply obeys_apply_newline | intros _].
  apply obeys_bind; [apply (grounded_decrease P_grounded) | intros _].
  apply obeys_bind; [apply obeys_apply_indent | intros _].
  apply (grounded_add P_grounded).
Qed.

Lemma obeys_generate_object_other properties :
  (forall fields, properties <> JObj fields) ->
  (forall st, P st (Threw AttributeError) st) ->
  obeys P (generate_object gv properties).
Proof.
  intros Hno Hraise. unfold generate_object.
  apply obeys_bind; [apply (grounded_add P_grounded) | intros _].
  destruct properties as [ | | | | | | fields];
    try (intros st r st' H; inversion H; subst; apply Hraise).
  destruct (Hno fields eq_refl).
Qed.

Lemma generate_array_loop_step item_schema n st :
  generate_array_loop self gv item_schema (S n) st
  = bind (probed_continuation self)
      (fun next_tokens =>
         if negb (contains "," (take 3 next_tokens)) then ret O
         else
           add_to_progress "," ;;
           apply_newline ;;
           apply_indent ;;
           gv item_schema None ;;
           more <- generate_array_loop self gv item_schema n ;;
           ret (S more)) st.
Proof.
  cbn [generate_array_loop]. unfold probed_continuation, bind.
  destruct (get_next_tokens _ _ _ _ _ _) as [[a | e | | ] st1]; reflexivity.
Qed.

Lemma obeys_generate_array_loop item_schema :
  obeys P (gv item_schema None) ->
  forall n, obeys P (generate_array_loop self gv item_schema n).
Proof.
  intros Hgv. induction n as [ | n IH].
  - apply obeys_ret.
  - eapply obeys_ext; [intros st; apply generate_array_loop_step | ].
    apply obeys_bind;
      [apply (grounded_continuation P_grounded) | intros next_tokens].
    destruct (negb _); [apply obeys_ret | ].
    apply obeys_bind; [apply (grounded_add P_grounded) | intros _].
    apply obeys_bind; [apply obeys_apply_newline | intros _].
    apply obeys_bind; [apply obeys_apply_indent | intros _].
    apply obeys_bind; [exact Hgv | intros _].
    apply obeys_bind; [exact IH | intros more]. apply obeys_ret.
Qed.

Lemma generate_array_step item_schema st :
  generate_array self gv item_schema st
  = bind (probed_emptiness self)
      (fun c =>
         if Ascii.eqb c "]" then add_to_progress "[]" ;; ret O
         else
           add_to_progress "[" ;;
           apply_newline ;;
           increase_indent ;;
           apply_indent ;;
           gv item_schema None ;;
           more <-
             generate_array_loop self gv item_schema
               (Z.to_nat (max_array_length self - 1)) ;;
           apply_newline ;;
           decrease_indent ;;
           apply_indent ;;
           add_to_progress "]" ;;
           ret (S more)) st.
Proof.
  unfold generate_array, probed_emptiness, bind.
  destruct (emptiness_probe self st) as [[first | e | | ] st1];
    try reflexivity.
  destruct (last_char first); reflexivity.
Qed.

Lemma obeys_generate_array item_schema :
  obeys P (gv item_schema None) ->
  obeys P (generate_array self gv item_schema).
Proof.
  intros Hgv.
  eapply obeys_ext; [intros st; apply generate_array_step | ].
  apply obeys_bind; [apply (grounded_emptiness P_grounded) | intros c].
  destruct (Ascii.eqb c _).
  - apply obeys_bind; [apply (grounded_add P_grounded) | intros _].
    apply obeys_ret.
  - apply obeys_bind; [apply (grounded_add P_grounded) | intros _].
    apply obeys_bind; [apply obeys_apply_newline | intros _].
    apply obeys_bind; [apply (grounded_increase P_grounded) | intros _].
    apply obeys_bind; [apply obeys_apply_indent | intros _].
    apply obeys_bind; [exact Hgv | intros _].
    apply obeys_bind; [apply obeys_generate_array_loop; exact Hgv | intros more].
    apply obeys_bind; [apply obeys_apply_newline | intros _].
    apply obeys_bind; [apply (grounded_decrease P_grounded) | intros _].
    apply obeys_bind; [apply obeys_apply_indent | intros _].
    apply obeys_bind; [apply (grounded_add P_grounded) | intros _].
    apply obeys_ret.
Qed.

End CompositeRule.

(** The three leaf branches of [generate_value], the key apart. *)
Lemma obeys_leaves :
  obeys P (v <- generate_number self None 0 ;;
           add_to_progress (str_of_number v))
  /\ obeys P (v <- generate_boolean self None 0 ;;
              add_to_progress (lower (str_of_boolean v)))
  /\ obeys P (add_to_progress (chr dq) ;;
              s <- generate_string self None 0 ;;
              add_to_progress s ;;
              add_to_progress (chr dq)).
Proof.
  repeat split.
  - apply obeys_bind; [apply (grounded_number P_grounded) | intros v].
    apply (grounded_add P_grounded).
  - apply obeys_bind; [apply (grounded_boolean P_grounded) | intros v].
    apply (grounded_add P_grounded).
  - apply obeys_bind; [apply (grounded_add P_grounded) | intros _].
    apply obeys_bind; [apply (grounded_string P_grounded) | intros s].
    apply obeys_bind; [apply (grounded_add P_grounded) | intros _].
    apply (grounded_add P_grounded).
Qed.

Lemma obeys_key (key : option string) :
  obeys P (match key with
           | Some k => if is_empty k then ret tt else apply_key k
           | None => ret tt
           end).
Proof.
  destruct key as [k | ]; [destruct (is_empty k) | ];
    first [apply obeys_ret | apply obeys_apply_key].
Qed.

(** A rule that holds where the traversal gives up on the schema holds of
    the traversal of any schema. *)
Lemma obeys_generate_value :
  (forall e st, shape_error e -> P st (Threw e) st) ->
  (forall st, P st Starved st) ->
  forall fuel schema key, obeys P (generate_value self fuel schema key).
Proof.
  intros Hshape Hstarved.
  assert (Hraise : forall (A : Type) e, shape_error e -> obeys P (@raise State A e)).
  { intros A e He st r st' H. inversion H. subst. apply Hshape. exact He. }
  induction fuel as [ | n IH]; intros schema key; cbn [generate_value].
  - intros st r st' H. inversion H. subst. apply Hstarved.
  - destruct schema as [ | | | | | | fields];
      try (apply Hraise; right; left; reflexivity).
    destruct (lookup "type" fields) as [schema_type | ];
      [ | apply Hraise; left; eexists; reflexivity].
    apply obeys_bind; [apply obeys_key | intros _].
    destruct (is_str "number" schema_type); [apply obeys_leaves | ].
    destruct (is_str "boolean" schema_type); [apply obeys_leaves | ].
    destruct (is_str "string" schema_type); [apply obeys_leaves | ].
    destruct (is_str "array" schema_type).
    { destruct (lookup "items" fields) as [items | ];
        [ | apply Hraise; left; eexists; reflexivity].
      apply obeys_bind; [ | intros count; apply obeys_ret].
      apply obeys_generate_array. apply IH. }
    destruct (is_str "object" schema_type).
    { destruct (lookup "properties" fields) as [properties | ];
        [ | apply Hraise; left; eexists; reflexivity].
      destruct properties as [ | | | | | | props];
        try (apply obeys_generate_object_other;
             [intros fs; discriminate
             | intros st; apply Hshape; right; right; left; reflexivity]).
      apply obeys_generate_object. intros k v _. apply IH. }
    apply Hraise. right. right. right. eexists. reflexivity.
Qed.

End Rule.

(** ** What a match captures *)

(** A match that succeeds went through its continuation, at a position no
    earlier than the one it started at. *)
Lemma run_continues r :
  forall prev s cs k res,
    run r prev s cs k = Some res ->
    exists p' s' cs',
      k p' s' cs' = Some res /\ (List.length s' <= List.length s)%nat.
Proof.
  assert (Hone : forall p s cs k res,
             one p s cs k = Some res ->
             exists p' s' cs',
               k p' s' cs' = Some res
               /\ (List.length s' <= List.length s)%nat).
  { intros p s cs k res H. destruct s as [ | a t]; [discriminate | ].
    cbn [one] in H. destruct (p a); [ | discriminate].
    exists (Some a), t, cs. split; [exact H | cbn [List.length]; lia]. }
  induction r as [ | c | | | neg chars sp | r1 IH1 r2 IH2 | r1 IH1 r2 IH2
                 | r1 IH1 | n r1 IH1 | c];
    intros prev s cs k res H; cbn [run] in H.
  - exists prev, s, cs. split; [exact H | lia].
  - exact (Hone _ _ _ _ _ H).
  - exact (Hone _ _ _ _ _ H).
  - exact (Hone _ _ _ _ _ H).
  - exact (Hone _ _ _ _ _ H).
  - apply IH1 in H as (p1 & s1 & cs1 & H & Hlen1).
    apply IH2 in H as (p2 & s2 & cs2 & H & Hlen2).
    exists p2, s2, cs2. split; [exact H | lia].
  - destruct (run r1 prev s cs k) as [res1 | ] eqn:H1.
    + rewrite <- H. exact (IH1 _ _ _ _ _ H1).
    + exact (IH2 _ _ _ _ _ H).
  - revert H. generalize (List.length s) at 1. intros fuel. revert prev s cs.
    induction fuel as [ | fuel IHf]; intros prev s cs H.
    + exists prev, s, cs. split; [exact H | lia].
    + match type of H with
      | match ?m with _ => _ end = _ => destruct m as [res1 | ] eqn:H1
      end.
      * apply IH1 in H1 as (p1 & s1 & cs1 & H1 & Hlen1).
        destruct (List.length s1 <? List.length s)%nat; [ | discriminate].
        rewrite H in H1.
        apply IHf in H1 as (p2 & s2 & cs2 & H2 & Hlen2).
        exists p2, s2, cs2. split; [exact H2 | lia].
      * exists prev, s, cs. split; [exact H | lia].
  - apply IH1 in H as (p1 & s1 & cs1 & H & Hlen1).
    exists p1, s1, ((n, string_of_list_ascii
                          (firstn (List.length s - List.length s1) s)) :: cs1).
    split; [exact H | exact Hlen1].
  - destruct prev as [a | ].
    + destruct (Ascii.eqb a c); [discriminate | ].
      exists (Some a), s, cs. split; [exact H | lia].
    + exists None, s, cs. split; [exact H | lia].
Qed.

Lemma run_class neg chars sp prev s cs k :
  run (Class neg chars sp) prev s cs k = one (in_class neg chars sp) s cs k.
Proof. reflexivity. Qed.

(** Group 1 of the pattern of the emptiness probe holds two characters that
    are no white space: what line 231 subscripts after a match is not
    empty. *)
Lemma array_capture s m :
  re_match array_regex s = Some m -> match_group 1 m <> EmptyString.
Proof.
  unfold re_match, array_regex. intros H.
  change (run (Star Space) None (list_ascii_of_string s) []
            (fun p1 s1 cs1 =>
               run (Class true [] true) p1 s1 cs1
                 (fun p2 s2 cs2 =>
                    run (Cat (Star Space) (Class true [] true)) p2 s2 cs2
                      (fun p3 s3 cs3 =>
                         Some ((0%nat,
                                string_of_list_ascii
                                  (firstn (List.length (list_ascii_of_string s)
                                           - List.length s3)
                                     (list_ascii_of_string s)))
                               :: (1%nat,
                                   string_of_list_ascii
                                     (firstn (List.length s1 - List.length s3)
                                        s1)) :: cs3))))
          = Some m) in H.
  apply run_continues in H as (p1 & s1 & cs1 & H & _).
  rewrite run_class in H. destruct s1 as [ | a t]; [discriminate | ].
  cbn [one] in H. destruct (in_class true [] true a); [ | discriminate].
  apply run_continues in H as (p3 & s3 & cs3 & H & Hlen).
  inversion H. subst m. unfold match_group. cbn [group Nat.eqb].
  destruct (List.length s3) as [ | l];
    [cbn [firstn string_of_list_ascii]; discriminate | ].
  destruct (List.length t - l)%nat eqn:Hd;
    [lia | cbn [firstn string_of_list_ascii]; discriminate].
Qed.

(** ** Cancellation and the way a run ends *)

Section Cancellation.

Context {E : Env}.
Variable self : Jsonformer.

Lemma consume_matched (rx : regex) g (snaps : list (string * World)) :
  forall last text w,
    consume (Some rx) g snaps last = Matched text w ->
    exists response m,
      re_match rx response = Some m /\ text = match_group g m.
Proof.
  induction snaps as [ | [response w0] rest IH]; intros last text w H;
    cbn [consume] in H; [discriminate | ].
  destruct (re_search double_quote_regex response); [discriminate | ].
  destruct (re_match rx response) as [m | ] eqn:Hm.
  - inversion H. exists response, m. split; [exact Hm | reflexivity].
  - exact (IH _ _ _ H).
Qed.

(** One acquisition and the flag: the two errors of the end of the stream
    are raised with the flag down, and a pattern whose group is never empty
    gives the empty string only with the flag up. *)
Lemma acquire_flag settings rx g ov st r st' :
  get_next_tokens self settings rx g ov st = (r, st') ->
  flag_at_end st (ending_of r) st'
  /\ (forall x,
        rx = Some x ->
        (forall s m, re_match x s = Some m -> match_group g m <> EmptyString) ->
        r = Done EmptyString -> stop_everything (world st') = true).
Proof.
  unfold get_next_tokens.
  destruct (generation_func _ _ _) as [snaps w_end].
  destruct (consume rx g snaps None) as [text w | w | last] eqn:Hc; intros H.
  - inversion H. subst. split; [exact I | ]. intros x -> Hne Hr.
    inversion Hr. subst text.
    apply consume_matched in Hc as (response & m & Hm & Heq).
    destruct (Hne _ _ Hm). symmetry. exact Heq.
  - inversion H. subst. split; [exact I | intros; discriminate].
  - destruct (stop_everything w_end) eqn:Hflag.
    + inversion H. subst. split; [exact I | intros; exact Hflag].
    + destruct rx as [x | ]; [ | destruct last as [response | ] ];
        inversion H; subst; (split; [ | intros; discriminate]).
      * exact Hflag.
      * exact I.
      * exact Hflag.
Qed.

Lemma generate_number_flag n :
  forall t i st r st',
    (Z.to_nat (4 - i) < n)%nat ->
    generate_number self t i st = (r, st') ->
    flag_at_end st (ending_of r) st'.
Proof.
  induction n as [ | n IH]; intros t i st r st' Hn H; [lia | ].
  rewrite generate_number_unfold in H. unfold generate_number_body in H.
  destruct (get_next_tokens self (number_settings self t) (Some number_regex)
              1 None st) as [r0 st1] eqn:Hget.
  pose proof (proj1 (acquire_flag _ _ _ _ _ Hget)) as Hflag.
  destruct r0 as [text | e | | ].
  - rewrite (bind_step _ _ _ Hget) in H.
    destruct (float_of_str text); [inversion H; exact I | ].
    unfold bind at 1 in H. unfold read_stop_everything in H.
    destruct (stop_everything (world st1)) eqn:Hstop; [inversion H; exact I | ].
    destruct (i >? 3)%Z eqn:Hi.
    + inversion H. subst. exact Hstop.
    + rewrite Z.gtb_ltb in Hi. apply Z.ltb_ge in Hi.
      apply IH in H; [exact H | lia].
  - rewrite (bind_raised _ _ _ Hget) in H. inversion H. subst. exact Hflag.
  - unfold bind in H. rewrite Hget in H. inversion H. subst. exact Hflag.
  - unfold bind in H. rewrite Hget in H. inversion H. subst. exact Hflag.
Qed.

Lemma flag_at_end_grounded : grounded self flag_at_end.
Proof.
  constructor.
  - split; [intros st; exact I | intros st st1 v st' _ H; exact H].
  - intros s st r st'. unfold add_to_progress.
    destruct (stop_everything (consumer _ _)) eqn:Hflag; intros H;
      inversion H; subst; [exact Hflag | exact I].
  - intros st r st' H. inversion H. exact I.
  - intros st r st' H. inversion H. exact I.
  - intros st r st' H.
    apply generate_number_flag with (n := 5%nat) in H; [exact H | simpl; lia].
  - intros st r st' H.
    destruct (generate_boolean_spec self (n := 5%nat) None 0 st ltac:(simpl; lia))
      as (v & st0 & new & Hrun & _).
    rewrite Hrun in H. inversion H. exact I.
  - intros st r st' H.
    destruct (generate_string_spec self (n := 3%nat) None 0 st ltac:(simpl; lia))
      as (r0 & st0 & new & Hrun & _ & _ & _ & [[text ->] | [Hi _] ]); [ | lia].
    rewrite Hrun in H. inversion H. exact I.
  - intros st r st'. unfold probed_emptiness, emptiness_probe, bind.
    destruct (get_next_tokens _ _ _ _ _ _) as [r0 st1] eqn:Hget.
    destruct (acquire_flag _ _ _ _ _ Hget) as [Hflag Hempty].
    destruct r0 as [first | e | | ]; intros H;
      try (inversion H; subst; exact Hflag).
    destruct (last_char first) eqn:Hlast; inversion H; subst; [exact I | ].
    destruct first as [ | a t]; [ | destruct (last_char_nonempty _ _ Hlast)].
    apply (Hempty array_regex eq_refl); [ | reflexivity].
    intros s m. apply array_capture.
  - intros st r st'. unfold probed_continuation, bind. intros H.
    exact (proj1 (acquire_flag _ _ _ _ _ H)).
Qed.

End Cancellation.

(** X7.  Cancellation and the way a run ends.  A traversal that ends by the
    break of [__call__] (line 312), or by the IndexError of the subscript of
    line 231, ends with the flag up: the probe of [generate_array] cannot
    capture the empty string, so its answer is empty only by the return of
    line 103.  A traversal that ends by the ValueError of line 105 or of
    line 126, or by the UnboundLocalError of line 106, ends with the flag
    down: a cancelled generation never surfaces as one of these. *)
Theorem cancellation_and_errors {E : Env} (self : Jsonformer) (fuel : nat)
  (schema : json) (key : option string) (st : State) :
  let run := generate_value self fuel schema key st in
  (fst run = Halted \/ fst run = Raised IndexError ->
   stop_everything (world (snd run)) = true)
  /\ (fst run = Raised (ValueError NoMatch)
      \/ fst run = Raised (ValueError InvalidNumber)
      \/ fst run = Raised UnboundLocalError ->
      stop_everything (world (snd run)) = false).
Proof.
  intros run.
  assert (H : flag_at_end st (ending_of (fst run)) (snd run)).
  { apply (obeys_generate_value (flag_at_end_grounded self)) with
      (fuel := fuel) (schema := schema) (key := key).
    - intros e st0 [[k ->] | [-> | [-> | [ty ->] ] ] ]; exact I.
    - intros st0. exact I.
    - apply surjective_pairing. }
  destruct (fst run) as [a | e | | ]; split;
    intros Hr; repeat destruct Hr as [Hr | Hr]; try discriminate;
    inversion Hr; subst; exact H.
Qed.

(** ** The steps that consult the generation function *)

Section Consulting.

Context {E : Env}.
Variable self : Jsonformer.

Lemma allowed_limits :
  allowed_limit None /\ allowed_limit (Some 6%Z) /\ allowed_limit (Some 3%Z).
Proof. unfold allowed_limit. auto. Qed.

Lemma consults_calls st st' new limit :
  untouched st st' new ->
  allowed_limit limit ->
  Forall (fun c => fst c = get_prompt self st
                   /\ setting_max_new_tokens (snd c) = limit) new ->
  forall v,
    (forall e, v = Threw e -> generation_error e) -> consults self st v st'.
Proof.
  intros Hu Hl Hall v Hv. exists new. split; [exact Hu | ].
  split; [ | exact Hv].
  eapply Forall_impl; [ | exact Hall].
  intros c [Hp Hs]. split; [left; exact Hp | rewrite Hs; exact Hl].
Qed.

Lemma acquisition_is_generation e : acquisition_error e -> generation_error e.
Proof. unfold generation_error. intros [-> | ->]; auto. Qed.

Lemma consults_generate_number : obeys (consults self) (generate_number self None 0).
Proof.
  intros st r st' H.
  destruct (generate_number_spec self (n := 5%nat) None 0 st ltac:(simpl; lia))
    as (r0 & st0 & new & Hrun & Hu & _ & Hall & Hout).
  rewrite Hrun in H. inversion H. subst r0 st0.
  apply (consults_calls Hu (proj1 allowed_limits) Hall).
  intros e He.
  destruct Hout as [[f ->] | [[-> _] | [(e' & -> & Hacq) | [-> _] ] ] ];
    try discriminate; inversion He; subst.
  - apply acquisition_is_generation. exact Hacq.
  - unfold generation_error. auto.
Qed.

Lemma consults_generate_boolean :
  obeys (consults self) (generate_boolean self None 0).
Proof.
  intros st r st' H.
  destruct (generate_boolean_spec self (n := 5%nat) None 0 st ltac:(simpl; lia))
    as (v & st0 & new & Hrun & Hu & _ & Hall & _).
  rewrite Hrun in H. inversion H. subst.
  apply (consults_calls Hu (proj1 (proj2 allowed_limits)) Hall).
  intros e He. discriminate.
Qed.

Lemma consults_generate_string :
  obeys (consults self) (generate_string self None 0).
Proof.
  intros st r st' H.
  destruct (generate_string_spec self (n := 3%nat) None 0 st ltac:(simpl; lia))
    as (r0 & st0 & new & Hrun & Hu & _ & Hall & [[text ->] | [Hi _] ]);
    [ | lia].
  rewrite Hrun in H. inversion H. subst.
  apply (consults_calls Hu (proj1 allowed_limits) Hall).
  intros e He. discriminate.
Qed.

Lemma consults_probed_emptiness : obeys (consults self) (probed_emptiness self).
Proof.
  intros st r st'. unfold probed_emptiness, emptiness_probe, bind.
  destruct (acquire_cases self (probe_settings self) (Some array_regex) 1 None st)
    as (r0 & st1 & Hget & Hu & Hcases).
  rewrite Hget. intros H.
  assert (Hst : st' = st1).
  { destruct r0 as [first | e | | ]; [destruct (last_char first) | | | ];
      inversion H; reflexivity. }
  subst st'.
  apply (consults_calls (limit := Some 6%Z) Hu (proj1 (proj2 allowed_limits))).
  { repeat constructor. }
  intros e He. unfold generation_error.
  destruct Hcases as [[first ->] | [-> | [[-> _] | [_ Hnone] ] ] ];
    [ | | | discriminate].
  - destruct (last_char first); inversion H; subst; inversion He; auto.
  - inversion H; subst; inversion He; auto.
  - inversion H; subst; inversion He; auto.
Qed.

Lemma consults_probed_continuation :
  obeys (consults self) (probed_continuation self).
Proof.
  intros st r st'. unfold probed_continuation, bind. intros H.
  destruct (acquire_cases self (continuation_settings self) None 0
              (Some (rstrip [dq; "}"%char] (get_prompt self st))) st)
    as (r0 & st1 & Hget & Hu & Hcases).
  rewrite Hget in H. inversion H. subst r0 st1.
  rewrite continuation_override in Hu.
  exists [(rstrip [dq; "}"%char] (get_prompt self st),
           continuation_settings self)].
  split; [exact Hu | ]. split.
  - constructor; [ | constructor].
    split; [right; reflexivity | apply allowed_limits].
  - intros e He. unfold generation_error.
    destruct Hcases as [[text ->] | [-> | [[-> Hsome] | [-> _] ] ] ];
      try discriminate; inversion He; auto.
Qed.

(** A chained rule that holds of the steps that write and of the steps that
    consult holds of every step. *)
Lemma grounded_of_consults (P : rule) :
  chained P ->
  (forall s, obeys P (add_to_progress s)) ->
  obeys P increase_indent ->
  obeys P decrease_indent ->
  (forall st v st', consults self st v st' -> P st v st') ->
  grounded self P.
Proof.
  intros Hc Hadd Hinc Hdec Hleaf.
  constructor; try assumption; intros st r st' H; apply Hleaf.
  - exact (consults_generate_number _ H).
  - exact (consults_generate_boolean _ H).
  - exact (consults_generate_string _ H).
  - exact (consults_probed_emptiness _ H).
  - exact (consults_probed_continuation _ H).
Qed.

End Consulting.

(** ** What is yielded *)

Section Streaming.

Context {E : Env}.
Variable self : Jsonformer.

Lemma grows_app p a q b r :
  grows p a q -> grows q b r -> grows p (a ++ b)%list r.
Proof.
  revert p. induction a as [ | x a IH]; intros p Ha Hb; cbn [grows app] in *.
  - subst q. exact Hb.
  - destruct Ha as [Hx Ha]. split; [exact Hx | exact (IH _ Ha Hb)].
Qed.

Lemma grows_last p snaps q : grows p snaps q -> last snaps p = q.
Proof.
  revert p. induction snaps as [ | x rest IH]; intros p H; cbn [grows] in H.
  - symmetry. exact H.
  - destruct H as [_ H]. apply IH in H.
    destruct rest as [ | y rest]; [exact H | ].
    rewrite <- H. clear. revert y.
    induction rest as [ | z rest IHr]; intros y; [reflexivity | ].
    exact (IHr z).
Qed.

Lemma grows_prefixes snaps :
  forall p q,
    grows p snaps q ->
    (exists rest, q = p ++ rest)
    /\ Forall (fun snap => exists rest, q = snap ++ rest) snaps.
Proof.
  induction snaps as [ | x snaps IH]; intros p q H; cbn [grows] in H.
  - subst q. split; [ | constructor].
    exists EmptyString. symmetry. apply append_empty_r.
  - destruct H as [[s Hx] H]. apply IH in H as [[rest Hq] Hall].
    split; [ | constructor; [exists rest; exact Hq | exact Hall] ].
    exists (s ++ rest). rewrite Hq, Hx. apply append_assoc.
Qed.

Lemma streams_grounded : grounded self streams.
Proof.
  apply grounded_of_consults.
  - split.
    + intros st. exists []. split; [symmetry; apply app_nil_r | reflexivity].
    + intros st st1 v st' (n1 & Hy1 & Hg1) (n2 & Hy2 & Hg2).
      exists (n1 ++ n2)%list. split.
      * rewrite Hy2, Hy1, app_assoc. reflexivity.
      * exact (@grows_app _ _ _ _ _ Hg1 Hg2).
  - intros s st r st'. unfold add_to_progress.
    destruct (stop_everything (consumer _ _)); intros H; inversion H; subst;
      exists [progress st ++ s]; cbn [yielded progress grows]; eauto.
  - intros st r st' H. inversion H. subst. exists [].
    split; [symmetry; apply app_nil_r | reflexivity].
  - intros st r st' H. inversion H. subst. exists [].
    split; [symmetry; apply app_nil_r | reflexivity].
  - intros st v st' (new & (Hp & _ & Hy & _) & _). exists [].
    split; [rewrite app_nil_r; exact Hy | exact Hp].
Qed.

End Streaming.

(** X8.  Every change of the buffer is yielded.  Over a traversal, however
    it ends, the snapshots yielded are the growth of the buffer: each one
    is the one before it with something appended, the first is the buffer
    the traversal found with something appended, and the last is the buffer
    the traversal leaves.  Nothing is written that the consumer is not
    shown, and the consumer is shown nothing that is taken back: the buffer
    the traversal leaves starts with every snapshot. *)
Theorem every_change_is_yielded {E : Env} (self : Jsonformer) (fuel : nat)
  (schema : json) (key : option string) (st : State) :
  let st' := snd (generate_value self fuel schema key st) in
  exists new,
    yielded st' = (yielded st ++ new)%list
    /\ grows (progress st) new (progress st')
    /\ last new (progress st) = progress st'
    /\ Forall (fun snap => exists rest, progress st' = snap ++ rest) new.
Proof.
  intros st'.
  destruct (obeys_generate_value (streams_grounded self)
              (fun e st0 _ =>
                 ex_intro _ [] (conj (eq_sym (app_nil_r _)) eq_refl))
              (fun st0 => ex_intro _ [] (conj (eq_sym (app_nil_r _)) eq_refl))
              fuel schema key st (surjective_pairing _))
    as (new & Hy & Hg).
  exists new. split; [exact Hy | ]. split; [exact Hg | ].
  split; [exact (@grows_last _ _ _ Hg) | ].
  exact (proj2 (@grows_prefixes new _ _ Hg)).
Qed.

(** ** What the generation function is shown *)

Section Prompting.

Context {E : Env}.
Variable self : Jsonformer.








End Prompting.


(** ** What validation buys *)

Section Validation.

Lemma distinct_lookup fields :
  distinct (map fst fields) = true ->
  forall k v, In (k, v) fields -> lookup k fields = Some v.
Proof.
  induction fields as [ | [k' v'] rest IH]; intros Hd k v Hin;
    [destruct Hin | ].
  cbn [map fst distinct] in Hd. apply andb_prop in Hd as [Hfresh Hd].
  cbn [lookup]. destruct Hin as [Heq | Hin].
  - inversion Heq. subst. rewrite String.eqb_refl. reflexivity.
  - destruct (String.eqb k' k) eqn:Hk; [ | exact (IH Hd _ _ Hin)].
    apply String.eqb_eq in Hk. subst k'.
    apply negb_true_iff in Hfresh.
    assert (Hex : existsb (String.eqb k) (map fst rest) = true).
    { apply existsb_exists. exists k. split; [ | apply String.eqb_refl].
      apply in_map_iff. exists (k, v). split; [reflexivity | exact Hin]. }
    rewrite Hex in Hfresh. discriminate.
Qed.

Lemma lookup_found k v (fields : list (string * json)) :
  In (k, v) fields -> lookup k fields <> None.
Proof.
  induction fields as [ | [k' v'] rest IH]; intros Hin; [destruct Hin | ].
  cbn [lookup]. destruct (String.eqb k' k) eqn:Hk; [discriminate | ].
  destruct Hin as [Heq | Hin]; [ | exact (IH Hin)].
  inversion Heq. subst. rewrite String.eqb_refl in Hk. discriminate.
Qed.

Lemma dict_like_lookup k fields v :
  dict_like (JObj fields) = true -> lookup k fields = Some v ->
  dict_like v = true.
Proof.
  cbn [dict_like]. intros Hd Hl. apply andb_prop in Hd as [_ Hall].
  apply lookup_in in Hl.
  exact (proj1 (forallb_forall _ _) Hall _ Hl).
Qed.

(** The loop of line 71 accepts when each value it reads back is
    accepted. *)
Lemma validate_properties_accepts validate properties :
  forall remaining,
    validate_properties validate properties remaining = Done tt ->
    forall k v,
      In (k, v) remaining ->
      exists v', lookup k properties = Some v' /\ validate v' = Done tt.
Proof.
  induction remaining as [ | [k' v'] rest IH]; intros H k v Hin;
    [destruct Hin | ].
  cbn [validate_properties] in H.
  destruct (lookup k' properties) as [value | ] eqn:Hl; [ | discriminate].
  destruct (validate value) as [[] | e | | ] eqn:Hv; try discriminate.
  destruct Hin as [Heq | Hin]; [ | exact (IH H _ _ Hin)].
  inversion Heq. subst. exists value. split; [exact Hl | exact Hv].
Qed.

Lemma is_str_exclusive a b ty :
  is_str a ty = true -> is_str b ty = true -> a = b.
Proof.
  destruct ty; try discriminate. cbn [is_str]. intros Ha Hb.
  apply String.eqb_eq in Ha, Hb. congruence.
Qed.

Context {E : Env}.
Variable self : Jsonformer.

Lemma raises_generation_errors_grounded :
  grounded self raises_generation_errors.
Proof.
  apply grounded_of_consults.
  - split; [intros st e He; discriminate | ].
    intros st st1 v st' _ H. exact H.
  - intros s st r st'. unfold add_to_progress.
    destruct (stop_everything (consumer _ _)); intros H; inversion H;
      intros e He; discriminate.
  - intros st r st' H. inversion H. intros e He. discriminate.
  - intros st r st' H. inversion H. intros e He. discriminate.
  - intros st v st' (new & _ & _ & H). exact H.
Qed.

(** The traversal of a schema that validation accepts. *)
Lemma validated_generation fg :
  forall fv schema key,
    dict_like schema = true ->
    validate_schema fv schema = Done tt ->
    obeys raises_generation_errors (generate_value self fg schema key).
Proof.
  pose proof raises_generation_errors_grounded as G.
  induction fg as [ | n IH]; intros fv schema key Hd Hv;
    cbn [generate_value].
  - intros st r st' H. inversion H. intros e He. discriminate.
  - destruct fv as [ | m]; [discriminate | ]. cbn [validate_schema] in Hv.
    destruct schema as [ | | | | | | fields]; try discriminate.
    destruct (lookup "type" fields) as [schema_type | ]; [ | discriminate].
    apply (obeys_bind G); [apply (obeys_key G) | intros _].
    destruct (is_str "number" schema_type) eqn:Hnumber;
      [apply (obeys_leaves G) | ].
    destruct (is_str "boolean" schema_type) eqn:Hboolean;
      [apply (obeys_leaves G) | ].
    destruct (is_str "string" schema_type) eqn:Hstring;
      [apply (obeys_leaves G) | ].
    destruct (is_str "object" schema_type) eqn:Hobject.
    + destruct (is_str "array" schema_type) eqn:Harray;
        [discriminate (is_str_exclusive _ _ _ Hobject Harray) | ].
      destruct (lookup "properties" fields) as [properties | ] eqn:Hl;
        [ | discriminate].
      destruct properties as [ | | | | | | props]; try discriminate.
      pose proof (dict_like_lookup _ _ Hd Hl) as Hdp.
      apply (obeys_generate_object G). intros k v Hin.
      destruct (validate_properties_accepts _ _ _ Hv _ _ Hin)
        as (v' & Hl' & Hv').
      cbn [dict_like] in Hdp. apply andb_prop in Hdp as [Hkeys Hall].
      rewrite (distinct_lookup _ Hkeys _ _ Hin) in Hl'. inversion Hl'. subst v'.
      apply IH with (fv := m); [ | exact Hv'].
      exact (proj1 (forallb_forall _ _) Hall _ Hin).
    + destruct (is_str "array" schema_type) eqn:Harray;
        [ | cbn [orb] in Hv; discriminate].
      destruct (lookup "items" fields) as [items | ] eqn:Hl; [ | discriminate].
      apply (obeys_bind G); [ | intros count; apply (obeys_ret G)].
      apply (obeys_generate_array G).
      apply IH with (fv := m); [exact (dict_like_lookup _ _ Hd Hl) | exact Hv].
Qed.

End Validation.

Lemma generation_error_not_shape e : generation_error e -> ~ shape_error e.
Proof.
  unfold generation_error, shape_error.
  intros He [[k Hk] | [Hk | [Hk | [ty Hk] ] ] ]; subst e;
    repeat destruct He as [He | He]; discriminate.
Qed.

(** X10.  What validation buys.  When [validate_schema] accepts a schema,
    the traversal of that schema never gives up on its shape: it raises no
    KeyError, no TypeError, no AttributeError and no ValueError for an
    unsupported type.  Whatever it raises then comes from the answers of the
    generation function.  The schema is a document as [json.loads] builds
    it, where no dict holds a key twice. *)
Theorem validated_schema_is_traversed {E : Env} (self : Jsonformer)
  (fv fg : nat) (schema : json) (key : option string) (st : State) (e : exn)
  (loaded : dict_like schema = true)
  (accepted : validate_schema fv schema = Done tt)
  (raised : fst (generate_value self fg schema key st) = Raised e) :
  generation_error e /\ ~ shape_error e.
Proof.
  assert (He : generation_error e).
  { apply (validated_generation self fg fv schema key loaded accepted st
             (surjective_pairing _)).
    rewrite raised. reflexivity. }
  split; [exact He | exact (generation_error_not_shape He)].
Qed.

(** A number schema is accepted, and noise at every attempt makes its
    traversal raise the ValueError of line 126. *)
Lemma validated_schema_is_traversed_witness :
  generation_error (ValueError InvalidNumber)
  /\ ~ shape_error (ValueError InvalidNumber).
Proof.
  apply (validated_schema_is_traversed
           (E := Scripted.quiet_env Scripted.noise_oracle)
           (Scripted.session Scripted.number_schema 10) 1 1
           Scripted.number_schema None
           (initial_state (E := Scripted.quiet_env Scripted.noise_oracle)
              Scripted.start)).
  - reflexivity.
  - reflexivity.
  - vm_compute. reflexivity.
Defined.

Section ValidationOutcomes.

Lemma validate_properties_outcomes validate properties :
  (forall k v,
     In (k, v) properties ->
     validate v = Done tt
     \/ exists e, validate v = Raised e /\ validation_error e) ->
  forall remaining,
    incl remaining properties ->
    validate_properties validate properties remaining = Done tt
    \/ exists e,
         validate_properties validate properties remaining = Raised e
         /\ validation_error e.
Proof.
  intros Hvalidate.
  induction remaining as [ | [k v] rest IH]; intros Hincl;
    [left; reflexivity | ].
  cbn [validate_properties].
  destruct (lookup k properties) as [value | ] eqn:Hl.
  - destruct (Hvalidate _ _ (lookup_in _ _ Hl)) as [-> | (e & -> & He)].
    + apply IH. intros p Hp. apply Hincl. right. exact Hp.
    + right. exists e. split; [reflexivity | exact He].
  - destruct (lookup_found k v properties (Hincl _ (or_introl eq_refl)) Hl).
Qed.

Lemma validate_schema_outcomes fuel :
  forall schema,
    (json_depth schema < fuel)%nat ->
    validate_schema fuel schema = Done tt
    \/ exists e, validate_schema fuel schema = Raised e /\ validation_error e.
Proof.
  unfold validation_error.
  induction fuel as [ | n IH]; intros schema Hfuel; [lia | ].
  cbn [validate_schema].
  destruct schema as [ | | | | | | fields];
    try (right; eexists; split; [reflexivity | left; eexists; reflexivity]).
  destruct (lookup "type" fields) as [schema_type | ].
  2:{ right. eexists. split; [reflexivity | ].
      right. left. eexists. reflexivity. }
  destruct (is_str "object" schema_type).
  { destruct (lookup "properties" fields) as [properties | ] eqn:Hl.
    2:{ right. eexists. split; [reflexivity | ].
        right. right. left. eexists. reflexivity. }
    pose proof (depth_lookup _ _ Hl) as Hdepth.
    destruct properties as [ | | | | | | props];
      try (right; eexists; split; [reflexivity | ];
           right; right; right; left; eexists; reflexivity).
    apply validate_properties_outcomes; [ | apply incl_refl].
    intros k v Hin. apply IH.
    pose proof (depth_in _ _ _ Hin). lia. }
  destruct (is_str "array" schema_type).
  { destruct (lookup "items" fields) as [items | ] eqn:Hl.
    2:{ right. eexists. split; [reflexivity | ].
        right. right. right. right. left. eexists. reflexivity. }
    apply IH. pose proof (depth_lookup _ _ Hl). lia. }
  destruct (_ || _); [left; reflexivity | ].
  right. eexists. split; [reflexivity | ].
  right. right. right. right. right. eexists. eexists. reflexivity.
Qed.

End ValidationOutcomes.

(** X11.  How [validate_schema] ends.  It accepts, or it raises one of its
    own six ValueErrors.  It raises nothing else: the subscript of line 72
    reads back a key the dict has just listed, so it never raises KeyError;
    and the descent never goes deeper than the schema. *)
Theorem validation_outcomes (schema : json) :
  validate_schema (S (json_depth schema)) schema = Done tt
  \/ exists e,
       validate_schema (S (json_depth schema)) schema = Raised e
       /\ validation_error e.
Proof. apply validate_schema_outcomes. lia. Qed.

(** ** The layout of what is written *)

Section Layout.

Context {E : Env}.
Variable self : Jsonformer.







Section CompositeLayout.

Variable gv : json -> option string -> M State unit.






End CompositeLayout.


End Layout.



(** ** Booleans under cancellation *)

Section BooleanCancellation.

Context {E : Env}.
Variable self : Jsonformer.

Lemma boolean_cancelled_chain
  (cancelled :
     forall settings st,
     exists st1,
       get_next_tokens self settings (Some boolean_regex) 1 None st
       = (Done EmptyString, st1))
  k :
  forall t st,
  exists st',
    generate_boolean self t (4 - Z.of_nat k) st = (Done (Boolean false), st')
    /\ List.length (calls st') = (List.length (calls st) + S k)%nat.
Proof.
  induction k as [ | k IH]; intros t st;
    destruct (cancelled (boolean_settings self t) st) as (st1 & Hget);
    destruct (get_next_tokens_frame _ _ _ _ _ _ Hget) as (_ & _ & _ & Hc);
    rewrite (generate_boolean_cases self t _ st Hget); cbv zeta;
    cbn [String.eqb orb].
  - exists st1. split; [reflexivity | ]. rewrite Hc, length_app. reflexivity.
  - assert (Hi : (4 - Z.of_nat (S k) <=? 3)%Z = true) by (apply Z.leb_le; lia).
    rewrite Hi.
    replace (4 - Z.of_nat (S k) + 1)%Z with (4 - Z.of_nat k)%Z by lia.
    destruct (IH (Some (float_or t (temperature self) * escalation)%float) st1)
      as (st' & Hrun & Hlen).
    exists st'. split; [exact Hrun | ].
    rewrite Hlen, Hc, length_app. cbn [List.length]. lia.
Qed.

Lemma boolean_without_doubled_quote
  (no_doubled :
     forall settings st st1,
       get_next_tokens self settings (Some boolean_regex) 1 None st
       <> (Raised (ValueError DoubledQuote), st1))
  n :
  forall t i st,
    (Z.to_nat (4 - i) < n)%nat ->
    exists b st', generate_boolean self t i st = (Done (Boolean b), st').
Proof.
  induction n as [ | n IH]; intros t i st Hn; [lia | ].
  destruct (acquire_cases self (boolean_settings self t) (Some boolean_regex)
              1 None st) as (r0 & st1 & Hget & _ & Hcases).
  pose proof (proj1 (acquire_flag _ _ _ _ _ _ Hget)) as Hflag.
  rewrite (generate_boolean_cases self t i st Hget). cbv zeta.
  assert (Hgo : exists b st',
             (if (i <=? 3)%Z
              then generate_boolean self
                     (Some (float_or t (temperature self) * escalation)%float)
                     (i + 1)%Z st1
              else (Done (Boolean false), st1)) = (Done (Boolean b), st')).
  { destruct (i <=? 3)%Z eqn:Hi; [ | eauto].
    apply Z.leb_le in Hi. apply IH. lia. }
  destruct Hcases as [[text ->] | [-> | [[-> _] | [_ Hnone] ] ] ];
    [ | | | discriminate].
  - destruct (_ || _); [eauto | ]. destruct (_ || _); [eauto | exact Hgo].
  - destruct (no_doubled _ _ _ Hget).
  - cbn in Hflag. rewrite Hflag. exact Hgo.
Qed.

End BooleanCancellation.

(** X13.  A cancelled boolean is retried.  When every acquisition returns
    the empty string, as it does when the stream ends unmatched with the
    flag up, [generate_boolean] does not return: the empty string is
    neither of the answers of lines 142 and 143, no exception was raised,
    and line 150 retries.  It makes all five calls and then answers
    [False]. *)
Theorem cancelled_boolean_is_retried {E : Env} (self : Jsonformer)
  (cancelled :
     forall settings st,
     exists st1,
       get_next_tokens self settings (Some boolean_regex) 1 None st
       = (Done EmptyString, st1))
  (st : State) :
  exists st',
    generate_boolean self None 0 st = (Done (Boolean false), st')
    /\ List.length (calls st') = (List.length (calls st) + 5)%nat.
Proof. exact (boolean_cancelled_chain self cancelled 4 None st). Qed.

(** X14.  The empty string of line 146 needs a doubled quote.  When no
    acquisition runs into a doubled quote, [generate_boolean] returns a
    bool, whatever the flag: the other ValueError, that of line 105, is
    raised only with the flag down, so the test of line 145 fails after
    it. *)
Theorem boolean_empty_needs_doubled_quote {E : Env} (self : Jsonformer)
  (no_doubled :
     forall settings st st1,
       get_next_tokens self settings (Some boolean_regex) 1 None st
       <> (Raised (ValueError DoubledQuote), st1))
  (t : option float) (i : Z) (st : State) :
  exists b st', generate_boolean self t i st = (Done (Boolean b), st').
Proof.
  apply (boolean_without_doubled_quote self no_doubled)
    with (n := S (Z.to_nat (4 - i))).
  lia.
Qed.

(** An oracle cut short by the flag at every call: five calls, then
    [False]. *)
Lemma cancelled_boolean_is_retried_witness :
  let E := Scripted.env Scripted.stopped_oracle in
  exists st',
    generate_boolean (E := E) (Scripted.session Scripted.boolean_schema 10)
      None 0 (initial_state (E := E) Scripted.start)
    = (Done (Boolean false), st')
    /\ List.length (calls st') = 5%nat.
Proof.
  intros E.
  apply (cancelled_boolean_is_retried (E := E)
           (Scripted.session Scripted.boolean_schema 10)).
  intros settings st. eexists. reflexivity.
Defined.

(** The same oracle never shows a doubled quote, and the flag it leaves up
    does not make [generate_boolean] return the empty string. *)
Lemma boolean_empty_needs_doubled_quote_witness :
  let E := Scripted.env Scripted.stopped_oracle in
  exists b st',
    generate_boolean (E := E) (Scripted.session Scripted.boolean_schema 10)
      None 0 (initial_state (E := E) Scripted.start)
    = (Done (Boolean b), st').
Proof.
  intros E.
  apply (boolean_empty_needs_doubled_quote (E := E)
           (Scripted.session Scripted.boolean_schema 10)).
  intros settings st st1 H.
  assert (Hget : exists st2,
             get_next_tokens (E := E)
               (Scripted.session Scripted.boolean_schema 10) settings
               (Some boolean_regex) 1 None st
             = (Done EmptyString, st2))
    by (eexists; reflexivity).
  destruct Hget as [st2 Hget]. rewrite Hget in H. discriminate H.
Defined.

(** ** Saving the settings *)

(** X15.  [save_settings] stores a schema only if [validate_schema] accepts
    it.  When it reports an error, the settings are what they were: nothing
    of the three values is stored.  When it reports a success, the settings
    hold the three values given, and the text stored is JSON for a schema
    whose traversal never gives up on the shape of the schema.  [json.loads]
    builds documents in which no dict holds a key twice. *)
Theorem saved_schema_is_valid (loads : string -> option json)
  (loads_dicts : forall s js, loads s = Some js -> dict_like js = true)
  (enable : bool) (schema : string) (manual : bool) (params : Params) :
  let result := save_settings loads enable schema manual params in
  (snd result = false -> fst result = params)
  /\ (snd result = true ->
      fst result = {| params_enabled := enable;
                      params_json_schema := schema;
                      params_manual_prompt := manual |}
      /\ exists js,
           loads schema = Some js
           /\ forall (E : Env) (self : Jsonformer) fuel key (st : State) e,
                fst (generate_value self fuel js key st) = Raised e ->
                generation_error e /\ ~ shape_error e).
Proof.
  unfold save_settings.
  destruct (loads schema) as [js | ] eqn:Hloads;
    [ | split; [reflexivity | discriminate] ].
  destruct (validate_schema (S (json_depth js)) js) as [[] | e | | ] eqn:Hv;
    try (split; [reflexivity | discriminate]).
  split; [discriminate | ]. intros _. split; [reflexivity | ].
  exists js. split; [reflexivity | ].
  intros E self fuel key st e Hraised.
  assert (He : generation_error e).
  { apply (validated_generation self fuel (S (json_depth js)) js key
             (loads_dicts _ _ Hloads) Hv st (surjective_pairing _)).
    rewrite Hraised. reflexivity. }
  split; [exact He | exact (generation_error_not_shape He)].
Qed.

(** The text of a number schema is stored; the text of an empty list is
    JSON, is refused by line 58, and leaves the settings as they were. *)
Lemma saved_schema_is_valid_witness :
  let params := {| params_enabled := false;
                   params_json_schema := EmptyString;
                   params_manual_prompt := false |} in
  fst (save_settings Scripted.loads true Scripted.number_text true params)
  = {| params_enabled := true;
       params_json_schema := Scripted.number_text;
       params_manual_prompt := true |}
  /\ fst (save_settings Scripted.loads true "[]" true params) = params.
Proof.
  intros params.
  assert (loads_dicts :
            forall s js, Scripted.loads s = Some js -> dict_like js = true).
  { intros s js. unfold Scripted.loads.
    destruct (String.eqb s Scripted.number_text);
      [intros H; inversion H; reflexivity | ].
    destruct (String.eqb s "[]"); intros H; inversion H; reflexivity. }
  split.
  - apply (proj2 (saved_schema_is_valid Scripted.loads loads_dicts true
                    Scripted.number_text true params)).
    reflexivity.
  - apply (proj1 (saved_schema_is_valid Scripted.loads loads_dicts true
                    "[]" true params)).
    reflexivity.
Defined.

(** ** What the stopping patterns capture *)

Section Captures.

Lemma firstn_consumed (consumed rest : list ascii) :
  firstn (List.length (consumed ++ rest) - List.length rest) (consumed ++ rest)
  = consumed.
Proof.
  rewrite length_app, Nat.add_sub, firstn_app, firstn_all, Nat.sub_diag.
  cbn [firstn]. apply app_nil_r.
Qed.

Lemma last_seen_last_char consumed :
  forall prev,
    last_seen prev consumed
    = match last_char (string_of_list_ascii consumed) with
      | Some a => Some a
      | None => prev
      end.
Proof.
  induction consumed as [ | a rest IH]; intros prev; [reflexivity | ].
  cbn [last_seen string_of_list_ascii]. rewrite IH.
  destruct rest as [ | b rest]; [reflexivity | ].
  change (string_of_list_ascii (b :: rest))
    with (String b (string_of_list_ascii rest)).
  change (last_char (String a (String b (string_of_list_ascii rest))))
    with (last_char (String b (string_of_list_ascii rest))).
  destruct (last_char (String b (string_of_list_ascii rest))) eqn:Hl;
    [reflexivity | destruct (last_char_nonempty _ _ Hl)].
Qed.

(** A greedy run of [.] consumes characters that are no newline. *)
Lemma run_star_dot prev s cs k res :
  run (Star Dot) prev s cs k = Some res ->
  exists consumed s',
    s = (consumed ++ s')%list
    /\ contains nl (string_of_list_ascii consumed) = false
    /\ k (last_seen prev consumed) s' cs = Some res.
Proof.
  cbn [run]. generalize (List.length s) at 1. intros fuel. revert prev s.
  induction fuel as [ | fuel IH]; intros prev s H.
  - exists [], s. repeat split. exact H.
  - destruct s as [ | a t]; cbn [one] in H.
    + exists [], []. repeat split. exact H.
    + destruct (negb (Ascii.eqb a nl)) eqn:Ha.
      * cbn [List.length] in H.
        rewrite (proj2 (Nat.ltb_lt _ _) (Nat.lt_succ_diag_r _)) in H.
        match type of H with
        | match ?m with _ => _ end = _ => destruct m as [res1 | ] eqn:H1
        end.
        -- inversion H. subst res1.
           apply IH in H1 as (consumed & s' & -> & Hc & Hk).
           exists (a :: consumed), s'. split; [reflexivity | ].
           split; [ | exact Hk].
           cbn [string_of_list_ascii contains]. rewrite Hc.
           apply negb_true_iff in Ha. rewrite Ha. reflexivity.
        -- exists [], (a :: t). repeat split. exact H.
      * exists [], (a :: t). repeat split. exact H.
Qed.

(** A literal word consumes itself. *)
Lemma run_word w :
  forall prev s cs k res,
    run (Re.word w) prev s cs k = Some res ->
    exists s' p',
      s = (list_ascii_of_string w ++ s')%list /\ k p' s' cs = Some res.
Proof.
  induction w as [ | c w IH]; intros prev s cs k res H; cbn [Re.word run] in H.
  - exists s, prev. split; [reflexivity | exact H].
  - destruct s as [ | a t]; [discriminate | ]. cbn [one] in H.
    destruct (Ascii.eqb c a) eqn:Hc; [ | discriminate].
    apply Ascii.eqb_eq in Hc. subst a.
    apply IH in H as (s' & p' & -> & Hk).
    exists s', p'. split; [reflexivity | exact Hk].
Qed.

(** Group 1 of the pattern of [generate_string]: no newline, and no
    backslash at its end. *)
Lemma string_capture s m :
  re_match string_regex s = Some m ->
  contains nl (match_group 1 m) = false
  /\ last_char (match_group 1 m) <> Some bslash.
Proof.
  unfold re_match, string_regex. intros H.
  change (run (Star Dot) None (list_ascii_of_string s) []
            (fun p1 s1 cs1 =>
               run (Cat (NotAfter bslash) (Lit dq)) p1 s1
                 ((1%nat,
                   string_of_list_ascii
                     (firstn (List.length (list_ascii_of_string s)
                              - List.length s1)
                        (list_ascii_of_string s))) :: cs1)
                 (fun p2 s2 cs2 =>
                    Some ((0%nat,
                           string_of_list_ascii
                             (firstn (List.length (list_ascii_of_string s)
                                      - List.length s2)
                                (list_ascii_of_string s))) :: cs2)))
          = Some m) in H.
  apply run_star_dot in H as (consumed & s1 & Hs & Hnl & H).
  rewrite Hs, firstn_consumed in H. cbn [run] in H.
  assert (Hlast : last_seen None consumed <> Some bslash).
  { intros Heq. rewrite Heq in H. rewrite Ascii.eqb_refl in H. discriminate. }
  assert (Hm : match_group 1 m = string_of_list_ascii consumed).
  { destruct (last_seen None consumed) as [a | ];
      [destruct (Ascii.eqb a bslash); [discriminate | ] | ];
      (destruct s1 as [ | b t]; [discriminate | ]); cbn [one] in H;
      (destruct (Ascii.eqb dq b); [ | discriminate]);
      inversion H; reflexivity. }
  rewrite Hm. split; [exact Hnl | ].
  rewrite last_seen_last_char in Hlast.
  destruct (last_char (string_of_list_ascii consumed)); [exact Hlast | ].
  discriminate.
Qed.

Lemma run_alt r1 r2 prev s cs k :
  run (Alt r1 r2) prev s cs k
  = match run r1 prev s cs k with
    | Some res => Some res
    | None => run r2 prev s cs k
    end.
Proof. reflexivity. Qed.

(** Group 1 of the pattern of [generate_boolean] is one of its four
    words. *)
Lemma boolean_capture s m :
  re_match boolean_regex s = Some m ->
  match_group 1 m = "true" \/ match_group 1 m = "1"
  \/ match_group 1 m = "false" \/ match_group 1 m = "0".
Proof.
  unfold re_match, boolean_regex. intros H.
  change (run (Star Space) None (list_ascii_of_string s) []
            (fun p1 s1 cs1 =>
               run (Alt (Re.word "true")
                      (Alt (Re.word "false")
                         (Class false ["0"; "1"]%char false))) p1 s1 cs1
                 (fun p2 s2 cs2 =>
                    Some ((0%nat,
                           string_of_list_ascii
                             (firstn (List.length (list_ascii_of_string s)
                                      - List.length s2)
                                (list_ascii_of_string s)))
                          :: (1%nat,
                              string_of_list_ascii
                                (firstn (List.length s1 - List.length s2) s1))
                          :: cs2)))
          = Some m) in H.
  apply run_continues in H as (p1 & s1 & cs1 & H & _).
  rewrite run_alt in H.
  match type of H with
  | match ?a with _ => _ end = _ => destruct a as [res | ] eqn:Htrue
  end.
  { inversion H. subst res.
    apply run_word in Htrue as (s2 & p2 & -> & Hk).
    rewrite firstn_consumed in Hk. inversion Hk. left. reflexivity. }
  rewrite run_alt in H.
  match type of H with
  | match ?a with _ => _ end = _ => destruct a as [res | ] eqn:Hfalse
  end.
  { inversion H. subst res.
    apply run_word in Hfalse as (s2 & p2 & -> & Hk).
    rewrite firstn_consumed in Hk. inversion Hk. right. right. left.
    reflexivity. }
  rewrite run_class in H. destruct s1 as [ | a t]; [discriminate | ].
  cbn [one] in H.
  destruct (in_class false ["0"; "1"]%char false a) eqn:Hin; [ | discriminate].
  change (a :: t) with ([a] ++ t)%list in H.
  rewrite firstn_consumed in H. inversion H.
  unfold match_group. cbn [group Nat.eqb string_of_list_ascii].
  unfold in_class in Hin. cbn [mem andb orb xorb] in Hin.
  rewrite orb_false_r in Hin.
  destruct (Ascii.eqb "0" a) eqn:Hzero.
  - apply Ascii.eqb_eq in Hzero. subst a. right. right. right. reflexivity.
  - destruct (Ascii.eqb "1" a) eqn:Hone; [ | discriminate].
    apply Ascii.eqb_eq in Hone. subst a. right. left. reflexivity.
Qed.

End Captures.

(** ** What the leaf generators can answer *)

Section Answers.

Context {E : Env}.
Variable self : Jsonformer.

(** An acquisition with a stopping pattern returns the group of a match,
    or the empty string of line 103. *)
Lemma acquire_done settings rx g ov st text st' :
  get_next_tokens self settings (Some rx) g ov st = (Done text, st') ->
  (text = EmptyString /\ stop_everything (world st') = true)
  \/ exists response m,
       re_match rx response = Some m /\ text = match_group g m.
Proof.
  unfold get_next_tokens.
  destruct (generation_func _ _ _) as [snaps w_end].
  destruct (consume (Some rx) g snaps None) as [t w | w | last] eqn:Hc;
    intros H; [ | discriminate | ].
  - inversion H. subst. right. exact (consume_matched _ _ _ _ Hc).
  - destruct (stop_everything w_end) eqn:Hflag; [ | discriminate].
    inversion H. subst. left. split; [reflexivity | exact Hflag].
Qed.

Lemma generate_string_shape n :
  forall t i st text st',
    (Z.to_nat (2 - i) < n)%nat ->
    generate_string self t i st = (Done text, st') ->
    contains nl text = false /\ last_char text <> Some bslash.
Proof.
  induction n as [ | n IH]; intros t i st text st' Hn H; [lia | ].
  destruct (get_next_tokens self (string_settings self t) (Some string_regex)
              1 None st) as [r0 st1] eqn:Hget.
  rewrite (generate_string_cases self t i st Hget) in H.
  destruct r0 as [text0 | [v | | | | | ] | | ]; try discriminate.
  - inversion H. subst.
    destruct (acquire_done _ _ _ _ _ Hget)
      as [[-> _] | (response & m & Hm & ->)].
    + split; [reflexivity | discriminate].
    + exact (string_capture _ Hm).
  - destruct (stop_everything (world st1)).
    { inversion H. split; [reflexivity | discriminate]. }
    destruct (i <? 2)%Z eqn:Hi.
    { apply Z.ltb_lt in Hi. apply IH in H; [exact H | lia]. }
    destruct (i <? 4)%Z; [ | discriminate].
    inversion H. split; [reflexivity | discriminate].
Qed.

End Answers.

(** X16.  What [generate_string] returns holds no newline and does not end
    in a backslash: the text that line 282 appends between the two quotes
    stays on its line, and the quote that closes it is not escaped by it.
    Group 1 of the stopping pattern is a run of [.], which no newline
    matches, and the look-behind refuses a backslash before the quote; the
    two other values returned, the empty string and the lone quote, are of
    that kind too. *)
Theorem string_value_is_one_line {E : Env} (self : Jsonformer)
  (t : option float) (i : Z) (st : State) :
  match fst (generate_string self t i st) with
  | Done text => contains nl text = false /\ last_char text <> Some bslash
  | _ => True
  end.
Proof.
  destruct (generate_string self t i st) as [r st'] eqn:H.
  destruct r as [text | e | | ]; cbn [fst]; try exact I.
  apply (generate_string_shape self (n := S (Z.to_nat (2 - i))) t i st) in H;
    [exact H | lia].
Qed.

(** X17.  An answer to [generate_boolean] is final.  When the acquisition
    returns and the flag is down, what it returns is one of the four words
    of the pattern, so one of lines 142 and 143 returns: the retry of line
    151 and the [False] of line 153 are reached only through the empty
    string of a cancelled acquisition. *)
Theorem boolean_answer_is_final {E : Env} (self : Jsonformer)
  (t : option float) (i : Z) (st : State) (r : string) (st1 : State)
  (answered :
     get_next_tokens self (boolean_settings self t) (Some boolean_regex) 1
       None st
     = (Done r, st1))
  (flag_down : stop_everything (world st1) = false) :
  exists b,
    generate_boolean self t i st = (Done (Boolean b), st1)
    /\ (b = true <-> r = "true" \/ r = "1").
Proof.
  rewrite (generate_boolean_cases self t i st answered). cbv zeta.
  destruct (acquire_done _ _ _ _ _ _ answered)
    as [[_ Hup] | (response & m & Hm & ->)];
    [rewrite Hup in flag_down; discriminate | ].
  destruct (boolean_capture _ Hm) as [-> | [-> | [-> | ->] ] ];
    cbn [String.eqb Ascii.eqb Bool.eqb orb andb].
  - exists true. split; [reflexivity | ]. split; auto.
  - exists true. split; [reflexivity | ]. split; auto.
  - exists false. split; [reflexivity | ].
    split; [discriminate | intros [H | H]; discriminate].
  - exists false. split; [reflexivity | ].
    split; [discriminate | intros [H | H]; discriminate].
Qed.

(** An oracle that says true: one acquisition, and the answer is [True]. *)
Lemma boolean_answer_is_final_witness :
  let E := Scripted.quiet_env (Scripted.say_oracle "true") in
  let self := Scripted.session Scripted.boolean_schema 10 in
  let st := initial_state (E := E) Scripted.start in
  exists b,
    generate_boolean (E := E) self None 0 st
    = (Done (Boolean b),
       snd (get_next_tokens (E := E) self (boolean_settings self None)
              (Some boolean_regex) 1 None st))
    /\ (b = true <-> "true" = "true" \/ "true" = "1").
Proof.
  intros E self st.
  apply (boolean_answer_is_final (E := E) self None 0 st (r := "true")).
  - reflexivity.
  - reflexivity.
Defined.

(** ** A continuation probe that is given nothing *)

(** X18.  A continuation probe that is given an empty stream crashes.  The
    probe of line 253 passes no stopping pattern, so after a stream with no
    snapshot, and with the flag down, [get_next_tokens] reaches the
    [return response] of line 106 with [response] never bound.  The array
    is not closed: the loop of [generate_array] ends by that
    UnboundLocalError, whatever the items and however many elements were
    still allowed. *)
Theorem empty_continuation_stream_crashes {E : Env} (self : Jsonformer)
  (gv : json -> option string -> M State unit) (item_schema : json)
  (n : nat) (st : State) (w_end : World)
  (nothing :
     generation_func (rstrip [dq; "}"%char] (get_prompt self st))
       (continuation_settings self) (world st)
     = ([], w_end))
  (flag_down : stop_everything w_end = false) :
  fst (generate_array_loop self gv item_schema (S n) st)
  = Raised UnboundLocalError.
Proof.
  cbn [generate_array_loop]. unfold bind at 1.
  rewrite <- (continuation_override self st) in nothing.
  unfold bind.
  rewrite (get_next_tokens_scan self (continuation_settings self) None 0
             (Some (rstrip [dq; "}"%char] (get_prompt self st))) st nothing).
  cbn [consume]. rewrite flag_down. reflexivity.
Qed.

(** The oracle of the end-to-end example says nothing after a buffer that
    ends neither slot. *)
Lemma empty_continuation_stream_crashes_witness :
  let E := Scripted.env Scripted.ann_oracle in
  fst (generate_array_loop (E := E)
         (Scripted.session (Scripted.array_schema Scripted.number_schema) 10)
         (fun _ _ => ret tt) Scripted.number_schema 9
         (initial_state (E := E) Scripted.start))
  = Raised UnboundLocalError.
Proof.
  intros E.
  apply (empty_continuation_stream_crashes (E := E)
           (Scripted.session (Scripted.array_schema Scripted.number_schema) 10)
           (fun _ _ => ret tt) Scripted.number_schema 8
           (initial_state (E := E) Scripted.start)
           (w_end := Scripted.tick Scripted.start)).
  - reflexivity.
  - reflexivity.
Defined.
